(** * Qubes application menu: search, highlighting, icons and settings

    A shallow embedding of the pure parts of [qubes_menu/utils.py] and of
    [AppMenu.load_settings] from [qubes_menu/appmenu.py], with the
    properties of the search matcher, the tokenizer, the highlight interval
    merge, the markup insertion, the icon fallback chain and the settings
    loader.

    Integers are [Z]; the int/float ranks 0, 0.5 and 1 are rationals.
    The modules [PyStr], [Search] and [Highlight] run the code on ASCII
    text, a list of characters on which [lower()] moves A-Z to a-z; the
    module [Unicode] states the tokenizer and the highlighting for every
    Python string, a list of code points, with [str.lower()] as an input.
    The builtin [int()] on strings, the toolkit, the event loop, the
    feature store and the constants of [constants.py] are inputs of the
    functions that use them. *)

From Stdlib Require Import ZArith QArith Ascii String List Lia Sorted Permutation.
From stdpp Require Import gmap strings list.
Import ListNotations.

(** ** Python string primitives used by the menu *)

Module PyStr.

Definition str := list ascii.

(** Literals: [lit "abc"] is the Python string ['abc']. *)
Definition lit (s : string) : str := list_ascii_of_string s.

(** [not s] for a string: true exactly for the empty string. *)
Definition is_empty (s : str) : bool :=
  match s with
  | [] => true
  | _ :: _ => false
  end.

(** [c.lower()] on one ASCII character: the letters A-Z move to a-z. *)
Definition lower_char (c : ascii) : ascii :=
  let n := nat_of_ascii c in
  if (65 <=? n)%nat && (n <=? 90)%nat then ascii_of_nat (n + 32) else c.

(** [s.lower()] for an ASCII string. *)
Definition lower (s : str) : str := map lower_char s.

(** [s.replace(old, new)] for one-character [old] and [new], the only way
    the menu calls it. *)
Definition replace (old new : ascii) (s : str) : str :=
  map (fun c => if Ascii.eqb c old then new else c) s.

(** [s.split(sep)] for a one-character separator: the pieces between the
    separators, empty pieces included; [''.split(' ')] is [['']]. *)
Fixpoint split (sep : ascii) (s : str) : list str :=
  match s with
  | [] => [[]]
  | c :: s' =>
      if Ascii.eqb c sep then [] :: split sep s'
      else match split sep s' with
           | w :: ws => (c :: w) :: ws
           | [] => [[c]]
           end
  end.

(** [s.startswith(p)]. *)
Fixpoint startswith (s p : str) {struct p} : bool :=
  match p with
  | [] => true
  | c :: p' =>
      match s with
      | [] => false
      | d :: s' => Ascii.eqb d c && startswith s' p'
      end
  end.

(** [sub in s]: [sub] occurs somewhere in [s]. *)
Fixpoint contains (sub s : str) : bool :=
  startswith s sub ||
  match s with
  | [] => false
  | _ :: s' => contains sub s'
  end.

(** [s.find(sub)], scanning from offset [i]: the lowest index at which
    [sub] occurs, or -1. *)
Fixpoint find_from (i : Z) (s sub : str) : Z :=
  if startswith s sub then i
  else match s with
       | [] => (-1)%Z
       | _ :: s' => find_from (i + 1)%Z s' sub
       end.

Definition find (s sub : str) : Z := find_from 0%Z s sub.

(** Python slice bounds: a negative bound counts from the end and is
    clipped at 0; a bound past the end is clipped by [take] and [drop]. *)
Definition slice_index (n : nat) (i : Z) : nat :=
  Z.to_nat (if (i <? 0)%Z then Z.max 0 (i + Z.of_nat n) else i).

(** [s[:e]], [s[b:]] and [s[b:e]]. *)
Definition slice_to (s : str) (e : Z) : str :=
  take (slice_index (List.length s) e) s.

Definition slice_from (s : str) (b : Z) : str :=
  drop (slice_index (List.length s) b) s.

Definition slice (s : str) (b e : Z) : str :=
  drop (slice_index (List.length s) b) (take (slice_index (List.length s) e) s).

(** [sub] occurs in [s] at offset [i]. *)
Definition occurs_at (s sub : str) (i : Z) : Prop :=
  exists pre post, s = pre ++ sub ++ post /\ Z.of_nat (List.length pre) = i.

End PyStr.

Import PyStr.

(** ** utils.py: parse_search and text_search *)

Module Search.

(** [parse_search]: lower-case, turn '-' and '_' into spaces, split on the
    space, keep the non-empty words. *)
Definition parse_search (search_text : str) : list str :=
  let search_words :=
    split " "%char
      (replace "_"%char " "%char (replace "-"%char " "%char (lower search_text))) in
  List.filter (fun w => negb (is_empty w)) search_words.

(** The loop of [text_search]: the first word that starts with, or
    contains, [search_word] decides the rank. *)
Fixpoint text_search_loop (search_word : str) (text_words : list str) : Q :=
  match text_words with
  | [] => 0%Q
  | text_word :: rest =>
      if startswith text_word search_word then 1%Q
      else if contains search_word text_word then (1 # 2)%Q
      else text_search_loop search_word rest
  end.

Definition text_search (search_word : str) (text_words : list str) : Q :=
  if is_empty search_word then 0%Q
  else text_search_loop search_word text_words.

(** The tokenizer as the specification words it: one pass over the text
    that closes the current word at every separator and never emits an
    empty word. *)
Definition is_separator (c : ascii) : bool :=
  Ascii.eqb c " "%char || Ascii.eqb c "-"%char || Ascii.eqb c "_"%char.

Definition emit (word : str) : list str :=
  if is_empty word then [] else [word].

Fixpoint tokenize_from (word : str) (text : str) : list str :=
  match text with
  | [] => emit word
  | c :: text' =>
      if is_separator c then emit word ++ tokenize_from [] text'
      else tokenize_from (word ++ [lower_char c]) text'
  end.

Definition tokenize (text : str) : list str := tokenize_from [] text.

(** What lower-casing and the two replacements do to one character. *)
Definition normal_char (c : ascii) : ascii :=
  if is_separator c then " "%char else lower_char c.

(** The word being read sits in front of the pieces of the rest. *)
Definition glue (word : str) (pieces : list str) : list str :=
  match pieces with
  | w :: ws => (word ++ w) :: ws
  | [] => [word]
  end.

Definition nonempty (w : str) : bool := negb (is_empty w).

(** A word of lower-case characters without a separator. *)
Definition clean (w : str) : Prop :=
  Forall (fun c => is_separator c = false /\ lower_char c = c) w.

End Search.


(** ** utils.py: highlight_words, the work done on one label's text *)

Module Highlight.

(** A found interval [(start, end)]: the characters [start .. end-1]. *)
Definition interval := (Z * Z)%type.

(** The search loop: one [find] per search word, in the order of the
    words; a word that is found appends [(start, start + len(word))]. *)
Definition find_step (search_text : str) (found_intervals : list interval)
    (word : str) : list interval :=
  let start := find search_text word in
  if (0 <=? start)%Z
  then found_intervals ++ [(start, (start + Z.of_nat (List.length word))%Z)]
  else found_intervals.

Definition found_intervals (text : str) (search_words : list str) : list interval :=
  let search_text := lower text in
  fold_left (find_step search_text) search_words [].

(** [found_intervals.sort(key=lambda x: x[0])]: Python's sort is stable,
    so it is modelled by the stable insertion sort on the start. *)
Fixpoint insert_by_start (x : interval) (l : list interval) : list interval :=
  match l with
  | [] => [x]
  | y :: l' =>
      if (fst x <=? fst y)%Z then x :: y :: l' else y :: insert_by_start x l'
  end.

Fixpoint sort_by_start (l : list interval) : list interval :=
  match l with
  | [] => []
  | x :: l' => insert_by_start x (sort_by_start l')
  end.

(** The merge loop.  [result_intervals] is never empty inside the loop, so
    it is kept as the pair of its closed front and its last element
    [result_intervals[-1]]: the loop either rewrites the last element or
    appends a new one. *)
Definition merge_step (result : list interval * interval) (iv : interval)
    : list interval * interval :=
  let '(closed, cur) := result in
  if (fst iv <=? snd cur)%Z
  then (closed, (fst cur, Z.max (snd cur) (snd iv)))
  else (closed ++ [cur], iv).

Definition merge_sorted (found : list interval) : list interval :=
  match found with
  | [] => []
  | first :: rest =>
      let '(closed, cur) := fold_left merge_step rest ([], first) in
      closed ++ [cur]
  end.

(** Sorting followed by the merge loop: the [mergeIntervals] of the
    specification. *)
Definition merge_intervals (found : list interval) : list interval :=
  merge_sorted (sort_by_start found).

(** One round of the markup loop:
    [text[:start] + hl_tag + text[start:end] + '</span>' + text[end:]]. *)
Definition markup_step (hl_tag close : str) (text : str) (iv : interval) : str :=
  let '(start, stop) := iv in
  slice_to text start ++ hl_tag ++ slice text start stop ++ close
    ++ slice_from text stop.

(** [for interval in reversed(result_intervals): ...]. *)
Definition insert_markup (hl_tag close : str) (text : str)
    (result_intervals : list interval) : str :=
  fold_left (markup_step hl_tag close) (rev result_intervals) text.

Definition span_close : str := lit "</span>".

(** The body of the loop over the labels: the markup set on a label that
    shows [text].  Without a found interval the plain text stays. *)
Definition highlight_text (hl_tag : str) (text : str) (search_words : list str) : str :=
  match found_intervals text search_words with
  | [] => text
  | found => insert_markup hl_tag span_close text (merge_intervals found)
  end.

(** A [Gtk.Label] as far as highlighting goes: its text and its markup. *)
Record Label : Type := mkLabel {
  get_text : str;
  markup : str
}.

(** [highlight_words]: nothing happens without labels or when the first
    label has no window to take the highlight tag from ([hl_tag] is then
    [None]); otherwise every label gets its markup. *)
Definition highlight_words (hl_tag : option str) (labels : list Label)
    (search_words : list str) : list Label :=
  match labels, hl_tag with
  | [], _ => labels
  | _ :: _, None => labels
  | _ :: _, Some tag =>
      map (fun label =>
             {| get_text := get_text label;
                markup := highlight_text tag (get_text label) search_words |})
          labels
  end.

(** Vocabulary for the properties of the merge. *)
Definition wf (iv : interval) : Prop := (fst iv <= snd iv)%Z.

(** [a] and [b] overlap or touch. *)
Definition touches (a b : interval) : Prop :=
  (fst a <= snd b)%Z /\ (fst b <= snd a)%Z.

(** [a] lies inside [b]. *)
Definition within (a b : interval) : Prop :=
  (fst b <= fst a)%Z /\ (snd a <= snd b)%Z.

(** [x] is one of the characters of [iv]. *)
Definition covers (iv : interval) (x : Z) : Prop :=
  (fst iv <= x < snd iv)%Z.

(** [a] starts before [b], and [a] ends strictly before [b] starts. *)
Definition starts_before (a b : interval) : Prop := (fst a < fst b)%Z.
Definition apart (a b : interval) : Prop := (snd a < fst b)%Z.

(** Intervals in text order, none overlapping the next, all inside a text
    of [n] characters, the first one starting at [pos] or later. *)
Fixpoint chain (pos : Z) (ivs : list interval) (n : Z) : Prop :=
  match ivs with
  | [] => (0 <= pos <= n)%Z
  | (s, e) :: ivs' => (0 <= pos <= s)%Z /\ (s <= e)%Z /\ chain e ivs' n
  end.

(** The marked-up text as the specification describes it, left to right:
    plain stretches of the original text and inserted delimiters. *)
Inductive piece : Type :=
  | Plain (s : str)
  | Delim (s : str).

Definition piece_text (p : piece) : str :=
  match p with
  | Plain s => s
  | Delim s => s
  end.

Definition piece_plain (p : piece) : str :=
  match p with
  | Plain s => s
  | Delim _ => []
  end.

Fixpoint segments (hl_tag close : str) (text : str) (pos : Z)
    (ivs : list interval) : list piece :=
  match ivs with
  | [] => [Plain (slice_from text pos)]
  | (s, e) :: ivs' =>
      Plain (slice text pos s) :: Delim hl_tag :: Plain (slice text s e)
        :: Delim close :: segments hl_tag close text e ivs'
  end.

(** All pieces in order, and the pieces with the delimiters stripped. *)
Definition flatten (ps : list piece) : str := concat (map piece_text ps).
Definition strip (ps : list piece) : str := concat (map piece_plain ps).

(** Whether the search loop finds [word] in [search_text], and the
    interval it records for it. *)
Definition hit (search_text word : str) : bool :=
  (0 <=? find search_text word)%Z.

Definition span (search_text word : str) : interval :=
  (find search_text word,
   (find search_text word + Z.of_nat (List.length word))%Z).

(** The order the sort establishes. *)
Definition start_le (a b : interval) : Prop := (fst a <= fst b)%Z.

(** The merge loop seen from its current interval: [cur] absorbs the next
    interval when that one starts at or before the end of [cur], and is
    closed otherwise. *)
Fixpoint coalesce (cur : interval) (rest : list interval) : list interval :=
  match rest with
  | [] => [cur]
  | iv :: rest' =>
      if (fst iv <=? snd cur)%Z
      then coalesce (fst cur, Z.max (snd cur) (snd iv)) rest'
      else cur :: coalesce iv rest'
  end.

(** [out] is made of [inp]: the outputs are proper intervals, every input
    lies inside an output, and every output starts where an input starts,
    ends where an input ends and has each of its characters inside an
    input that lies inside it. *)
Definition merged_of (inp out : list interval) : Prop :=
  Forall wf out /\
  (forall i, In i inp -> exists o, In o out /\ within i o) /\
  (forall o, In o out ->
     (exists i, In i inp /\ within i o /\ fst i = fst o) /\
     (exists i, In i inp /\ within i o /\ snd i = snd o) /\
     (forall x, covers o x -> exists i, In i inp /\ within i o /\ covers i x)).

End Highlight.


(** ** utils.py: load_icon *)

Module Icons.

(** The exceptions the toolkit calls can raise; [load_icon] handles
    [GLib.Error] and [TypeError], anything else would pass through. *)
Inductive exn : Type :=
  | GLibError
  | TypeError
  | OtherError.

(** A call that returns a value ([inr]) or raises ([inl]). *)
Definition result (A : Type) : Type := (exn + A)%type.

(** [Gtk.IconSize]; [INVALID] is the enum value 0 and so is falsy. *)
Inductive IconSize : Type :=
  | INVALID
  | MENU
  | SMALL_TOOLBAR
  | LARGE_TOOLBAR
  | BUTTON
  | DND
  | DIALOG.

(** [if size:] for an [Optional[Gtk.IconSize]]. *)
Definition size_given (size : option IconSize) : bool :=
  match size with
  | None => false
  | Some INVALID => false
  | Some _ => true
  end.

(** The toolkit, an external collaborator: the size table of
    [Gtk.icon_size_lookup], [GdkPixbuf.Pixbuf.new_from_file_at_size],
    [Gtk.IconTheme.get_default().load_icon] with [FORCE_SIZE], and
    [GdkPixbuf.Pixbuf.new] followed by [fill(0)].  A width or height is
    [None] when no pixel size was passed. *)
Record toolkit (pixbuf : Type) : Type := Toolkit {
  icon_size_lookup : IconSize -> Z * Z;
  new_from_file_at_size : str -> option Z -> option Z -> result pixbuf;
  theme_load_icon : str -> option Z -> result pixbuf;
  new_blank : option Z -> option Z -> result pixbuf
}.

Arguments icon_size_lookup {pixbuf} _ _.
Arguments new_from_file_at_size {pixbuf} _ _ _ _.
Arguments theme_load_icon {pixbuf} _ _ _.
Arguments new_blank {pixbuf} _ _ _.

(** The width and height asked for: the table entry of [size] when a size
    is given, the pixel size otherwise. *)
Definition requested {pixbuf : Type} (tk : toolkit pixbuf)
    (size : option IconSize) (pixel_size : option Z) : option Z * option Z :=
  match size with
  | Some sz =>
      if size_given size
      then let '(w, h) := icon_size_lookup tk sz in (Some w, Some h)
      else (pixel_size, pixel_size)
  | None => (pixel_size, pixel_size)
  end.

Definition load_icon {pixbuf : Type} (tk : toolkit pixbuf) (icon_name : str)
    (size : option IconSize) (pixel_size : option Z) : result pixbuf :=
  let '(width, height) := requested tk size pixel_size in
  match new_from_file_at_size tk icon_name width height with
  | inr p => inr p
  | inl OtherError => inl OtherError
  | inl _ =>
      match theme_load_icon tk icon_name width with
      | inr image => inr image
      | inl OtherError => inl OtherError
      | inl _ => new_blank tk width height
      end
  end.

(** The defaults of the signature: [size=Gtk.IconSize.LARGE_TOOLBAR],
    [pixel_size=None]. *)
Definition load_icon_default {pixbuf : Type} (tk : toolkit pixbuf)
    (icon_name : str) : result pixbuf :=
  load_icon tk icon_name (Some LARGE_TOOLBAR) None.

(** A small concrete toolkit to run [load_icon] on: a pixbuf records where
    it came from; [files] are the paths that hold an image and [themed]
    the names the icon theme knows. *)
Inductive toy_pixbuf : Type :=
  | FromFile (path : str) (width height : Z)
  | FromTheme (name : str) (width : Z)
  | Blank (width height : Z).

Definition known (names : list str) (name : str) : bool :=
  existsb (fun n => bool_decide (n = name)) names.

Definition toy_sizes (sz : IconSize) : Z * Z :=
  match sz with
  | INVALID => (0, 0)
  | MENU | SMALL_TOOLBAR | BUTTON => (16, 16)
  | LARGE_TOOLBAR => (24, 24)
  | DND => (32, 32)
  | DIALOG => (48, 48)
  end%Z.

Definition toy_toolkit (files themed : list str) : toolkit toy_pixbuf :=
  {| icon_size_lookup := toy_sizes;
     new_from_file_at_size := fun name width height =>
       match width, height with
       | Some w, Some h => if known files name then inr (FromFile name w h)
                           else inl GLibError
       | _, _ => inl TypeError
       end;
     theme_load_icon := fun name width =>
       match width with
       | Some w => if known themed name then inr (FromTheme name w)
                   else inl GLibError
       | None => inl TypeError
       end;
     new_blank := fun width height =>
       match width, height with
       | Some w, Some h => inr (Blank w h)
       | _, _ => inl TypeError
       end |}.

End Icons.

(** ** appmenu.py: AppMenu.load_settings *)

Module Settings.

Inductive exn : Type :=
  | ValueError
  | TypeError.

(** What [features.get(key, default)] can hand to [int()] and [bool()]:
    a stored string, or the default passed by the caller. *)
Inductive pyval : Type :=
  | PStr (s : str)
  | PInt (z : Z)
  | PBool (b : bool)
  | PNone.

(** [int(v)].  What the builtin makes of a string is an input:
    [int_of_str s] is the number, or [None] when [int(s)] raises
    [ValueError]. *)
Definition py_int (int_of_str : str -> option Z) (v : pyval) : exn + Z :=
  match v with
  | PStr s => match int_of_str s with
              | Some z => inr z
              | None => inl ValueError
              end
  | PInt z => inr z
  | PBool b => inr (if b then 1 else 0)%Z
  | PNone => inl TypeError
  end.

(** A small parser to run examples with: a string of one to eighteen
    ASCII digits is its decimal value, anything else is refused.  On the
    strings it accepts it agrees with [int()]. *)
Definition digit_of (c : ascii) : option Z :=
  let n := nat_of_ascii c in
  if (48 <=? n)%nat && (n <=? 57)%nat then Some (Z.of_nat (n - 48)) else None.

Fixpoint digits_value (acc : Z) (s : str) : option Z :=
  match s with
  | [] => Some acc
  | c :: s' =>
      match digit_of c with
      | Some d => digits_value (10 * acc + d)%Z s'
      | None => None
      end
  end.

Definition toy_int (s : str) : option Z :=
  if is_empty s || (18 <? List.length s)%nat then None else digits_value 0 s.

(** [bool(v)]. *)
Definition py_bool (v : pyval) : bool :=
  match v with
  | PStr s => negb (is_empty s)
  | PInt z => negb (z =? 0)%Z
  | PBool b => b
  | PNone => false
  end.

(** The fields of [AppMenu] that [load_settings] writes, and for every
    page handler the sorting order it was last given. *)
Record AppMenu : Type := mkAppMenu {
  initial_page : Z;
  sort_running : bool;
  handlers : gmap string bool
}.

(** [local_vm.features.get(key, default)]: the feature store of the local
    qube maps feature names to strings. *)
Definition features_get (features : gmap string string) (key : string)
    (default : pyval) : pyval :=
  match features !! key with
  | Some v => PStr (lit v)
  | None => default
  end.

Section LoadSettings.

(** The builtin [int] on strings, and the feature names of
    [constants.py]. *)
Variable int_of_str : str -> option Z.
Variables INITIAL_PAGE_FEATURE SORT_RUNNING_FEATURE : string.

(** [try: initial_page = int(...) except ValueError: initial_page = 1]. *)
Definition read_initial_page (features : gmap string string) : exn + Z :=
  match py_int int_of_str
          (features_get features INITIAL_PAGE_FEATURE (PInt 1)) with
  | inr initial_page => inr initial_page
  | inl ValueError => inr 1%Z
  | inl e => inl e
  end.

Definition load_settings (self : AppMenu) (features : gmap string string)
    : exn + AppMenu :=
  match read_initial_page features with
  | inl e => inl e
  | inr page =>
      let sorting :=
        py_bool (features_get features SORT_RUNNING_FEATURE (PBool false)) in
      inr {| initial_page := page;
             sort_running := sorting;
             handlers := (fun _ => sorting) <$> handlers self |}
  end.

End LoadSettings.

End Settings.


(** ** utils.py: get_visible_child *)

Module Widgets.

Section Children.

(** The children of a [Gtk.Container], with the two queries the function
    makes on each of them. *)
Context {W : Type}.
Variables get_mapped get_sensitive : W -> bool.

(** The loop: the first child of the iterator that is mapped and
    sensitive, [None] when the iterator runs out. *)
Fixpoint first_visible (iterator : list W) : option W :=
  match iterator with
  | [] => None
  | child :: rest =>
      if get_mapped child && get_sensitive child then Some child
      else first_visible rest
  end.

Definition get_visible_child (children : list W) (reverse : bool) : option W :=
  let iterator := if reverse then rev children else children in
  first_visible iterator.

(** A child that can take the focus. *)
Definition usable (child : W) : Prop :=
  get_mapped child = true /\ get_sensitive child = true.

End Children.

End Widgets.

(** ** Vocabulary for the highlight intervals of one label *)

Module HighlightBounds.

Import Highlight.

(** [iv] is a proper interval inside a text of [len] characters. *)
Definition inside (len : Z) (iv : interval) : Prop :=
  (0 <= fst iv)%Z /\ (fst iv <= snd iv)%Z /\ (snd iv <= len)%Z.

End HighlightBounds.

(** ** appmenu.py: the rest of AppMenu *)

Module Menu.

Import Settings.

(** [' '.join(parts)] for a one-character separator; it is the inverse of
    [split] and serves to describe the strings [split] is applied to. *)
Fixpoint join (sep : ascii) (parts : list str) : str :=
  match parts with
  | [] => []
  | [part] => part
  | part :: rest => part ++ sep :: join sep rest
  end.

(** [_do_power_button]: the entries of [XDG_CURRENT_DESKTOP], with the
    empty string for an unset variable, decide between the logout prompt
    of KDE over D-Bus and [xfce4-session-logout]. *)
Inductive logout_action : Type :=
  | KDEPrompt
  | XfceLogout.

Definition current_environs (xdg_current_desktop : option str) : list str :=
  split ":"%char (default [] xdg_current_desktop).

Definition _do_power_button (xdg_current_desktop : option str) : logout_action :=
  if existsb (fun entry => bool_decide (entry = lit "KDE"))
       (current_environs xdg_current_desktop)
  then KDEPrompt
  else XfceLogout.

(** [_update_settings]: a feature event of another qube is ignored, one of
    the local qube reloads the settings. *)
Definition _update_settings (int_of_str : str -> option Z)
    (INITIAL_PAGE_FEATURE SORT_RUNNING_FEATURE : string) (local_name : string) (self : AppMenu) (vm : string)
    (features : gmap string string) : Settings.exn + AppMenu :=
  if bool_decide (vm = local_name)
  then load_settings int_of_str INITIAL_PAGE_FEATURE SORT_RUNNING_FEATURE self features
  else inr self.

(** The dispatcher delivers the feature events one at a time; each event
    comes with the feature store of the local qube as it is when the
    handler runs.  An exception ends the run. *)
Fixpoint feature_events (int_of_str : str -> option Z)
    (INITIAL_PAGE_FEATURE SORT_RUNNING_FEATURE : string)
    (local_name : string) (self : AppMenu)
    (events : list (string * gmap string string)) : Settings.exn + AppMenu :=
  match events with
  | [] => inr self
  | (vm, features) :: rest =>
      match _update_settings int_of_str INITIAL_PAGE_FEATURE SORT_RUNNING_FEATURE
              local_name self vm features with
      | inl e => inl e
      | inr self' =>
          feature_events int_of_str INITIAL_PAGE_FEATURE SORT_RUNNING_FEATURE
            local_name self' rest
      end
  end.

(** Two applications with the same page handlers. *)
Definition same_pages (a b : AppMenu) : Prop :=
  forall order : bool,
    (fun _ : bool => order) <$> handlers a = (fun _ : bool => order) <$> handlers b.

(** What the menu does with its main window and notebook: the window is
    shown or hidden and may be kept above, the notebook has a current
    page. *)
Record Window : Type := mkWindow {
  is_visible : bool;
  keep_above : bool
}.

Record Notebook : Type := mkNotebook {
  current_page : Z
}.

(** The application object: the fields of [load_settings], the flags of
    the command line, and the two widgets, [None] until [perform_setup]
    has run. *)
Record App : Type := mkApp {
  fields : AppMenu;
  primary : bool;
  keep_visible : bool;
  start_in_background : bool;
  main_window : option Window;
  main_notebook : option Notebook
}.

(** The exceptions of the methods below: the [KeyError] of
    [handlers['search_page']], a failed [assert], the exception of the
    focus grab on a page the notebook does not have, an exception that
    ends the event loop, and an exception out of [load_settings]. *)
Inductive exn : Type :=
  | KeyError
  | AssertionError
  | FocusError
  | LoopError
  | SettingsError (e : Settings.exn).

(** A value of the options dictionary: [True] for a flag, the number for
    [--page]. *)
Inductive variant : Type :=
  | VBool (b : bool)
  | VInt (z : Z).

Definition variant_int (v : variant) : Z :=
  match v with
  | VBool b => if b then 1%Z else 0%Z
  | VInt z => z
  end.

Definition set_initial_page (self : App) (page : Z) : App :=
  {| fields := {| initial_page := page;
                  sort_running := sort_running (fields self);
                  handlers := handlers (fields self) |};
     primary := primary self;
     keep_visible := keep_visible self;
     start_in_background := start_in_background self;
     main_window := main_window self;
     main_notebook := main_notebook self |}.

Definition set_keep_visible (self : App) (b : bool) : App :=
  {| fields := fields self;
     primary := primary self;
     keep_visible := b;
     start_in_background := start_in_background self;
     main_window := main_window self;
     main_notebook := main_notebook self |}.

Definition set_start_in_background (self : App) (b : bool) : App :=
  {| fields := fields self;
     primary := primary self;
     keep_visible := keep_visible self;
     start_in_background := b;
     main_window := main_window self;
     main_notebook := main_notebook self |}.

Definition set_main_window (self : App) (w : option Window) : App :=
  {| fields := fields self;
     primary := primary self;
     keep_visible := keep_visible self;
     start_in_background := start_in_background self;
     main_window := w;
     main_notebook := main_notebook self |}.

Definition set_main_notebook (self : App) (nb : option Notebook) : App :=
  {| fields := fields self;
     primary := primary self;
     keep_visible := keep_visible self;
     start_in_background := start_in_background self;
     main_window := main_window self;
     main_notebook := nb |}.

(** [self.main_notebook.set_current_page(self.initial_page)] behind its
    [if self.main_notebook:]. *)
Definition show_initial_page (self : App) : App :=
  match main_notebook self with
  | Some _ =>
      set_main_notebook self
        (Some {| current_page := initial_page (fields self) |})
  | None => self
  end.

(** The option handling of [do_command_line], before [self.activate()]. *)
Definition read_options (self : App) (options : gmap string variant) : App :=
  let self1 :=
    match options !! "keep-visible"%string with
    | Some _ => set_keep_visible self true
    | None => self
    end in
  let self2 :=
    match options !! "page"%string with
    | Some page => set_initial_page self1 (variant_int page)
    | None => self1
    end in
  match options !! "background"%string with
  | Some _ => set_start_in_background self2 true
  | None => self2
  end.

(** [hide_menu]: the search page is reset (a [KeyError] without it), then
    the window is hidden unless the menu is to stay visible. *)
Definition hide_menu (self : App) : exn + App :=
  match handlers (fields self) !! "search_page"%string with
  | None => inl KeyError
  | Some _ =>
      match main_window self with
      | Some w =>
          if negb (keep_visible self)
          then inr (set_main_window self
                      (Some {| is_visible := false; keep_above := keep_above w |}))
          else inr self
      | None => inr self
      end
  end.

(** [_focus_out]: [open_menus] is [SelfAwareMenu.OPEN_MENUS]. *)
Definition _focus_out (self : App) (open_menus : Z) : exn + App :=
  if (open_menus <=? 0)%Z then hide_menu self else inr self.

Definition KEY_Escape : Z := 65307.
Definition KEY_space : Z := 32.

(** [_key_press]: the result says whether the key press is consumed;
    [focus_on_search] is whether the focused widget of the active window
    is a [Gtk.SearchEntry]. *)
Definition _key_press (self : App) (keyval : Z) (focus_on_search : bool)
    : exn + (bool * App) :=
  match (if (keyval =? KEY_Escape)%Z then hide_menu self else inr self) with
  | inl e => inl e
  | inr self' =>
      if (keyval =? KEY_space)%Z && negb focus_on_search
      then inr (true, self')
      else inr (false, self')
  end.

(** Whether the main window exists and is shown. *)
Definition window_visible (self : App) : bool :=
  match main_window self with
  | Some w => is_visible w
  | None => false
  end.

(** The page that [load_settings] reads from the feature store: the
    feature value when [int()] accepts it, 1 otherwise. *)
Definition feature_page (int_of_str : str -> option Z)
    (INITIAL_PAGE_FEATURE : string) (features : gmap string string) : Z :=
  match features !! INITIAL_PAGE_FEATURE with
  | Some v => match int_of_str (lit v) with
              | Some page => page
              | None => 1%Z
              end
  | None => 1%Z
  end.

(** Whether an option was given on the command line. *)
Definition given (options : gmap string variant) (name : string) : bool :=
  match options !! name with
  | Some _ => true
  | None => false
  end.

Section Activation.

(** The builtin [int] on strings and the feature names of
    [constants.py]; the feature store of the local qube; the window and
    notebook that the builder makes from the glade file; the sorting order
    of a page handler that has just been made; whether [get_nth_page]
    finds a page of the notebook under a number; and what the event loop
    makes of the menu from the state it is entered with until it ends. *)
Variable int_of_str : str -> option Z.
Variables INITIAL_PAGE_FEATURE SORT_RUNNING_FEATURE : string.
Variable features : gmap string string.
Variable built_window : Window.
Variable built_notebook : Notebook.
Variable new_page_sorting : bool.
Variable has_page : Z -> bool.
Variable event_loop : App -> exn + App.

(** [perform_setup], as far as the fields above go: the widgets, the four
    page handlers, and [load_settings] at the end. *)
Definition perform_setup (self : App) : exn + App :=
  let pages : gmap string bool :=
    <["search_page"%string := new_page_sorting]>
      (<["app_page"%string := new_page_sorting]>
         (<["favorites_page"%string := new_page_sorting]>
            (<["settings_page"%string := new_page_sorting]> ∅))) in
  let with_pages :=
    {| initial_page := initial_page (fields self);
       sort_running := sort_running (fields self);
       handlers := pages |} in
  match load_settings int_of_str INITIAL_PAGE_FEATURE SORT_RUNNING_FEATURE with_pages
          features with
  | inl e => inl (SettingsError e)
  | inr loaded =>
      inr {| fields := loaded;
             primary := primary self;
             keep_visible := keep_visible self;
             start_in_background := start_in_background self;
             main_window := Some built_window;
             main_notebook := Some built_notebook |}
  end.

(** [do_activate]: the first activation sets the menu up, shows the window
    unless the menu starts in the background, opens the initial page,
    gives the focus to the tab of that page ([FocusError] stands for the
    exception of that line when the notebook has no such page) and runs
    the event loop until it ends; a later activation opens the initial
    page and hides a visible window, or presents the window.  The resize
    of a window higher than nine tenths of the screen changes none of the
    fields kept here. *)
Definition do_activate (self : App) : exn + App :=
  if primary self then
    let self1 := show_initial_page self in
    match main_window self1 with
    | Some w =>
        if is_visible w && negb (keep_visible self1)
        then inr (set_main_window self1
                    (Some {| is_visible := false; keep_above := true |}))
        else inr (set_main_window self1
                    (Some {| is_visible := true; keep_above := true |}))
    | None => inr self1
    end
  else
    match perform_setup self with
    | inl e => inl e
    | inr self1 =>
        let self2 :=
          {| fields := fields self1;
             primary := true;
             keep_visible := keep_visible self1;
             start_in_background := start_in_background self1;
             main_window := main_window self1;
             main_notebook := main_notebook self1 |} in
        match main_window self2, main_notebook self2 with
        | Some w, Some _ =>
            let shown :=
              if start_in_background self2 then w
              else {| is_visible := true; keep_above := keep_above w |} in
            let entered :=
              show_initial_page (set_main_window self2 (Some shown)) in
            if has_page (initial_page (fields entered))
            then event_loop entered
            else inl FocusError
        | _, _ => inl AssertionError
        end
    end.

(** [do_command_line]: the options, then [self.activate()]; the result of
    the call is 0. *)
Definition do_command_line (self : App) (options : gmap string variant)
    : exn + (Z * App) :=
  match do_activate (read_options self options) with
  | inl e => inl e
  | inr self' => inr (0%Z, self')
  end.

End Activation.

End Menu.


(** ** Text in full: code points, and the builtin lower() as an input *)

(** The modules [Search] and [Highlight] above run the code on ASCII
    text, where [lower()] is known.  This module states the same functions
    for every Python string: a string is its list of code points, and what
    [str.lower()] makes of a string is an input of the functions that call
    it. *)
Module Unicode.

Import Highlight.

Definition ustr := list N.

(** The code points of a literal. *)
Definition codes (s : string) : ustr := map N_of_ascii (list_ascii_of_string s).

Definition SPACE : N := 32.
Definition HYPHEN : N := 45.
Definition UNDERSCORE : N := 95.

(** [if w] for a string: false exactly for the empty string. *)
Definition nonempty (w : ustr) : bool :=
  match w with
  | [] => false
  | _ :: _ => true
  end.

(** [s.replace(old, new)] and [s.split(sep)] for single characters. *)
Definition replace (old new : N) (s : ustr) : ustr :=
  map (fun c => if (c =? old)%N then new else c) s.

Fixpoint split (sep : N) (s : ustr) : list ustr :=
  match s with
  | [] => [[]]
  | c :: s' =>
      if (c =? sep)%N then [] :: split sep s'
      else match split sep s' with
           | w :: ws => (c :: w) :: ws
           | [] => [[c]]
           end
  end.

(** [s.startswith(p)] and [s.find(sub)]. *)
Fixpoint startswith (s p : ustr) {struct p} : bool :=
  match p with
  | [] => true
  | c :: p' =>
      match s with
      | [] => false
      | d :: s' => (d =? c)%N && startswith s' p'
      end
  end.

Fixpoint find_from (i : Z) (s sub : ustr) : Z :=
  if startswith s sub then i
  else match s with
       | [] => (-1)%Z
       | _ :: s' => find_from (i + 1)%Z s' sub
       end.

Definition find (s sub : ustr) : Z := find_from 0%Z s sub.

(** [s[:e]], [s[b:]] and [s[b:e]], with the slice bounds of [PyStr]. *)
Definition slice_to (s : ustr) (e : Z) : ustr :=
  take (slice_index (List.length s) e) s.

Definition slice_from (s : ustr) (b : Z) : ustr :=
  drop (slice_index (List.length s) b) s.

Definition slice (s : ustr) (b e : Z) : ustr :=
  drop (slice_index (List.length s) b) (take (slice_index (List.length s) e) s).

(** [sub] occurs in [s] at offset [i]. *)
Definition occurs_at (s sub : ustr) (i : Z) : Prop :=
  exists pre post, s = pre ++ sub ++ post /\ Z.of_nat (List.length pre) = i.

(** The search loop, the markup loop and the closing tag of
    [highlight_words]. *)
Definition find_step (search_text : ustr) (found_intervals : list interval)
    (word : ustr) : list interval :=
  let start := find search_text word in
  if (0 <=? start)%Z
  then found_intervals ++ [(start, (start + Z.of_nat (List.length word))%Z)]
  else found_intervals.

Definition markup_step (hl_tag close : ustr) (text : ustr) (iv : interval) : ustr :=
  let '(start, stop) := iv in
  slice_to text start ++ hl_tag ++ slice text start stop ++ close
    ++ slice_from text stop.

Definition insert_markup (hl_tag close : ustr) (text : ustr)
    (result_intervals : list interval) : ustr :=
  fold_left (markup_step hl_tag close) (rev result_intervals) text.

Definition span_close : ustr := codes "</span>".

Section Lower.

(** [lower s] is [s.lower()]. *)
Variable lower : ustr -> ustr.

Definition parse_search (search_text : ustr) : list ustr :=
  let search_words :=
    split SPACE
      (replace UNDERSCORE SPACE (replace HYPHEN SPACE (lower search_text))) in
  List.filter nonempty search_words.

Definition found_intervals (text : ustr) (search_words : list ustr)
    : list interval :=
  let search_text := lower text in
  fold_left (find_step search_text) search_words [].

Definition highlight_text (hl_tag : ustr) (text : ustr)
    (search_words : list ustr) : ustr :=
  match found_intervals text search_words with
  | [] => text
  | found => insert_markup hl_tag span_close text (merge_intervals found)
  end.

End Lower.

(** What is known of [lower()] without the Unicode tables: on a string of
    ASCII characters it moves A-Z to a-z and keeps the rest. *)
Definition ascii_lower (c : N) : N :=
  if (65 <=? c)%N && (c <=? 90)%N then (c + 32)%N else c.

Definition is_ascii (c : N) : Prop := (c < 128)%N.

Definition lower_on_ascii (lower : ustr -> ustr) : Prop :=
  forall s, Forall is_ascii s -> lower s = map ascii_lower s.

(** The tokenizer as the specification words it, on the lower-cased text:
    one pass that closes the current word at every separator and never
    emits an empty word. *)
Definition is_separator (c : N) : bool :=
  (c =? SPACE)%N || (c =? HYPHEN)%N || (c =? UNDERSCORE)%N.

Definition emit (word : ustr) : list ustr :=
  if nonempty word then [word] else [].

Fixpoint scan (word : ustr) (text : ustr) : list ustr :=
  match text with
  | [] => emit word
  | c :: text' =>
      if is_separator c then emit word ++ scan [] text'
      else scan (word ++ [c]) text'
  end.

Definition tokenize (lower : ustr -> ustr) (text : ustr) : list ustr :=
  scan [] (lower text).

(** One character after the two replacements, and the word being read in
    front of the pieces of the rest. *)
Definition normal (c : N) : N := if is_separator c then SPACE else c.

Definition glue (word : ustr) (pieces : list ustr) : list ustr :=
  match pieces with
  | w :: ws => (word ++ w) :: ws
  | [] => [word]
  end.

(** The marked-up text left to right, as in [Highlight]. *)
Inductive piece : Type :=
  | Plain (s : ustr)
  | Delim (s : ustr).

Definition piece_text (p : piece) : ustr :=
  match p with
  | Plain s => s
  | Delim s => s
  end.

Definition piece_plain (p : piece) : ustr :=
  match p with
  | Plain s => s
  | Delim _ => []
  end.

Fixpoint segments (hl_tag close : ustr) (text : ustr) (pos : Z)
    (ivs : list interval) : list piece :=
  match ivs with
  | [] => [Plain (slice_from text pos)]
  | (s, e) :: ivs' =>
      Plain (slice text pos s) :: Delim hl_tag :: Plain (slice text s e)
        :: Delim close :: segments hl_tag close text e ivs'
  end.

Definition flatten (ps : list piece) : ustr := concat (map piece_text ps).
Definition strip (ps : list piece) : ustr := concat (map piece_plain ps).

End Unicode.


Import Search Highlight Icons Settings Widgets HighlightBounds Menu.

(** * Properties *)

(** ** Strings *)

Section StringFacts.

Lemma startswith_iff (s p : str) :
  startswith s p = true <-> exists post, s = p ++ post.
Proof.
  revert s; induction p as [|c p IH]; intros s; simpl.
  - split; [intros _; by exists s | done].
  - destruct s as [|d s]; simpl.
    + split; [done | intros [post H]; discriminate].
    + rewrite andb_true_iff, Ascii.eqb_eq, IH. split.
      * intros [-> [post ->]]. by exists post.
      * intros [post H]. injection H as -> ->. split; [done | by exists post].
Qed.

Lemma startswith_length (s p : str) :
  startswith s p = true -> (List.length p <= List.length s)%nat.
Proof.
  rewrite startswith_iff. intros [post ->]. rewrite length_app. lia.
Qed.

Lemma contains_length (sub s : str) :
  contains sub s = true -> (List.length sub <= List.length s)%nat.
Proof.
  induction s as [|c s IH]; simpl.
  - rewrite orb_false_r. apply startswith_length.
  - rewrite orb_true_iff. intros [H|H].
    + apply startswith_length in H. simpl in H. lia.
    + apply IH in H. lia.
Qed.

Lemma occurs_at_nil_head (s sub : str) :
  occurs_at s sub 0 <-> startswith s sub = true.
Proof.
  rewrite startswith_iff. unfold occurs_at. split.
  - intros (pre & post & -> & Hlen). destruct pre; [|simpl in Hlen; lia].
    by exists post.
  - intros [post ->]. exists [], post. done.
Qed.

Lemma occurs_at_cons (c : ascii) (s sub : str) (i : Z) :
  (0 < i)%Z -> occurs_at (c :: s) sub i <-> occurs_at s sub (i - 1).
Proof.
  intros Hi. unfold occurs_at. split.
  - intros (pre & post & Heq & Hlen). destruct pre as [|d pre].
    + simpl in Hlen. lia.
    + injection Heq as -> ->. exists pre, post. split; [done|].
      simpl in Hlen. lia.
  - intros (pre & post & -> & Hlen). exists (c :: pre), post.
    split; [done | simpl; lia].
Qed.

Lemma occurs_at_nonneg (s sub : str) (i : Z) : occurs_at s sub i -> (0 <= i)%Z.
Proof. intros (pre & post & _ & <-). lia. Qed.

(** [find_from] returns -1 when there is no occurrence, and otherwise the
    offset of the leftmost one, counted from [i]. *)
Lemma find_from_spec (s sub : str) (i : Z) :
  (find_from i s sub = (-1)%Z /\ forall j, ~ occurs_at s sub j) \/
  (exists k, find_from i s sub = (i + k)%Z /\ occurs_at s sub k /\
             forall j, occurs_at s sub j -> (k <= j)%Z).
Proof.
  revert i; induction s as [|c s IH]; intros i; simpl.
  - destruct (startswith [] sub) eqn:E.
    + right. exists 0%Z. split; [lia|]. split; [by apply occurs_at_nil_head|].
      intros j Hj. by apply occurs_at_nonneg in Hj.
    + left. split; [done|]. intros j (pre & post & Heq & _).
      symmetry in Heq. apply app_eq_nil in Heq as [-> Heq].
      apply app_eq_nil in Heq as [-> _]. discriminate.
  - destruct (startswith (c :: s) sub) eqn:E.
    + right. exists 0%Z. split; [lia|]. split; [by apply occurs_at_nil_head|].
      intros j Hj. by apply occurs_at_nonneg in Hj.
    + assert (Hno0 : ~ occurs_at (c :: s) sub 0).
      { rewrite occurs_at_nil_head. congruence. }
      destruct (IH (i + 1)%Z) as [[Hr Hnone]|(k & Hr & Hocc & Hmin)].
      * left. split; [done|]. intros j Hj.
        pose proof (occurs_at_nonneg _ _ _ Hj).
        destruct (decide (j = 0%Z)) as [->|Hne]; [done|].
        apply occurs_at_cons in Hj; [|lia]. by apply Hnone in Hj.
      * right. exists (k + 1)%Z. split; [lia|].
        pose proof (occurs_at_nonneg _ _ _ Hocc).
        split.
        { apply occurs_at_cons; [lia|]. by replace (k + 1 - 1)%Z with k by lia. }
        intros j Hj. pose proof (occurs_at_nonneg _ _ _ Hj).
        destruct (decide (j = 0%Z)) as [->|Hne]; [done|].
        apply occurs_at_cons in Hj; [|lia]. apply Hmin in Hj. lia.
Qed.

Lemma find_spec (s sub : str) :
  (find s sub = (-1)%Z /\ forall j, ~ occurs_at s sub j) \/
  (occurs_at s sub (find s sub) /\
   forall j, occurs_at s sub j -> (find s sub <= j)%Z).
Proof.
  unfold find. destruct (find_from_spec s sub 0) as [H|(k & Hr & Hocc & Hmin)].
  - by left.
  - right. rewrite Hr. by replace (0 + k)%Z with k by lia.
Qed.

Lemma split_cons (sep : ascii) (s : str) :
  exists w ws, split sep s = w :: ws.
Proof.
  induction s as [|c s (w & ws & IH)]; simpl; [by eexists _, _|].
  destruct (Ascii.eqb c sep); [by eexists _, _|].
  rewrite IH. by eexists _, _.
Qed.

Lemma normal_char_eq (c : ascii) :
  (let l := lower_char c in
   let d := if Ascii.eqb l "-"%char then " "%char else l in
   if Ascii.eqb d "_"%char then " "%char else d) = normal_char c.
Proof.
  destruct c as [[] [] [] [] [] [] [] []]; reflexivity.
Qed.

Lemma normal_char_space (c : ascii) :
  Ascii.eqb (normal_char c) " "%char = is_separator c.
Proof.
  destruct c as [[] [] [] [] [] [] [] []]; reflexivity.
Qed.

Lemma lower_char_idem (c : ascii) : lower_char (lower_char c) = lower_char c.
Proof.
  destruct c as [[] [] [] [] [] [] [] []]; reflexivity.
Qed.

Lemma lower_char_separator (c : ascii) :
  is_separator (lower_char c) = is_separator c.
Proof.
  destruct c as [[] [] [] [] [] [] [] []]; reflexivity.
Qed.

Lemma normalise_map (s : str) :
  replace "_"%char " "%char (replace "-"%char " "%char (lower s))
  = map normal_char s.
Proof.
  unfold replace, lower. rewrite !map_map. apply map_ext.
  intros c. apply normal_char_eq.
Qed.

End StringFacts.

(** ** The tokenizer *)

Section Tokenizer.

Lemma filter_nonempty_single (word : str) : List.filter nonempty [word] = emit word.
Proof. unfold emit, nonempty. by destruct word. Qed.

Lemma split_tokenize_from (word text : str) :
  List.filter nonempty (glue word (split " "%char (map normal_char text)))
  = tokenize_from word text.
Proof.
  revert word; induction text as [|c text IH]; intros word; simpl.
  - rewrite app_nil_r. apply filter_nonempty_single.
  - rewrite normal_char_space. destruct (is_separator c) eqn:Hsep.
    + simpl. rewrite app_nil_r. rewrite <- IH.
      destruct (split_cons " "%char (map normal_char text)) as (w & ws & ->).
      rewrite <- filter_nonempty_single. simpl.
      by destruct (nonempty word).
    + rewrite <- IH.
      destruct (split_cons " "%char (map normal_char text)) as (w & ws & ->).
      simpl. unfold normal_char. rewrite Hsep. by rewrite <- app_assoc.
Qed.

Lemma parse_search_tokenize (text : str) : parse_search text = tokenize text.
Proof.
  unfold parse_search, tokenize. rewrite normalise_map.
  rewrite <- split_tokenize_from.
  destruct (split_cons " "%char (map normal_char text)) as (w & ws & ->).
  reflexivity.
Qed.

Lemma concat_emit (word : str) : concat (emit word) = word.
Proof. unfold emit. destruct word; simpl; [done | by rewrite app_nil_r]. Qed.

Lemma tokenize_from_concat (word text : str) :
  concat (tokenize_from word text)
  = word ++ lower (List.filter (fun c => negb (is_separator c)) text).
Proof.
  revert word; induction text as [|c text IH]; intros word; simpl.
  - rewrite app_nil_r. apply concat_emit.
  - destruct (is_separator c) eqn:Hsep.
    + by rewrite concat_app, concat_emit, IH.
    + rewrite IH. simpl. by rewrite <- app_assoc.
Qed.

Lemma tokenize_from_words (word text : str) :
  clean word ->
  Forall (fun w => w <> [] /\ clean w) (tokenize_from word text).
Proof.
  revert word; induction text as [|c text IH]; intros word Hw; simpl.
  - unfold emit. destruct word; simpl; [constructor|].
    constructor; [done | constructor].
  - destruct (is_separator c) eqn:Hsep.
    + apply Forall_app. split.
      * unfold emit. destruct word; simpl; [constructor|].
        constructor; [done | constructor].
      * apply IH. constructor.
    + apply IH. apply Forall_app. split; [done|].
      constructor; [|constructor].
      by rewrite lower_char_separator, lower_char_idem.
Qed.

End Tokenizer.

(** ** The search matcher *)

Section Matcher.

Lemma text_search_loop_values (search_word : str) (text_words : list str) :
  text_search_loop search_word text_words = 0%Q \/
  text_search_loop search_word text_words = (1 # 2)%Q \/
  text_search_loop search_word text_words = 1%Q.
Proof.
  induction text_words as [|w ws IH]; simpl; [by left|].
  destruct (startswith w search_word); [by right; right|].
  destruct (contains search_word w); [by right; left | exact IH].
Qed.

Lemma text_search_loop_too_long (search_word : str) (text_words : list str) :
  Forall (fun w => (List.length w < List.length search_word)%nat) text_words ->
  text_search_loop search_word text_words = 0%Q.
Proof.
  induction 1 as [|w ws Hw _ IH]; simpl; [done|].
  destruct (startswith w search_word) eqn:E1.
  { apply startswith_length in E1. lia. }
  destruct (contains search_word w) eqn:E2.
  { apply contains_length in E2. lia. }
  exact IH.
Qed.

End Matcher.

(** C5: [text_search] returns 0, 0.5 or 1; a prefix hit on "file" ranks
    "fi" at 1, "le" is only inside "file" and ranks 0.5, "xyz" ranks 0, the
    empty search word ranks 0 against any words, and so does a search word
    longer than every word of the text. *)
Theorem text_search_ranks :
  (forall (search_word : str) (text_words : list str),
     text_search search_word text_words = 0%Q \/
     text_search search_word text_words = (1 # 2)%Q \/
     text_search search_word text_words = 1%Q) /\
  text_search (lit "fi") [lit "file"; lit "edit"] = 1%Q /\
  text_search (lit "le") [lit "file"] = (1 # 2)%Q /\
  text_search (lit "xyz") [lit "file"] = 0%Q /\
  (forall text_words : list str, text_search [] text_words = 0%Q) /\
  (forall (search_word : str) (text_words : list str),
     Forall (fun w => (List.length w < List.length search_word)%nat) text_words ->
     text_search search_word text_words = 0%Q).
Proof.
  split.
  { intros search_word text_words. unfold text_search.
    destruct (is_empty search_word); [by left|].
    apply text_search_loop_values. }
  do 3 (split; [reflexivity|]).
  split; [reflexivity|].
  intros search_word text_words Hlen. unfold text_search.
  destruct (is_empty search_word); [done|].
  by apply text_search_loop_too_long.
Qed.

Lemma text_search_ranks_witness :
  Forall (fun w => (List.length w < List.length (lit "terminal"))%nat)
    [lit "file"; lit "edit"] /\
  text_search (lit "terminal") [lit "file"; lit "edit"] = 0%Q.
Proof.
  assert (H : Forall (fun w => (List.length w < List.length (lit "terminal"))%nat)
                [lit "file"; lit "edit"]).
  { repeat constructor. }
  split; [exact H|].
  exact (proj2 (proj2 (proj2 (proj2 (proj2 text_search_ranks))))
           (lit "terminal") [lit "file"; lit "edit"] H).
Defined.

(** C1: the loop returns at the first word that contains the search word.
    "web" contains "b" without starting with it, so the rank is 0.5 although
    the next word, "browser", starts with "b". *)
Theorem text_search_stops_at_substring :
  parse_search (lit "Web-Browser") = [lit "web"; lit "browser"] /\
  startswith (lit "browser") (lit "b") = true /\
  text_search (lit "b") [lit "web"; lit "browser"] = (1 # 2)%Q /\
  text_search (lit "b") [lit "browser"; lit "web"] = 1%Q.
Proof. repeat split; reflexivity. Qed.

(** ** The search loop of highlight_words *)

Section FoundIntervals.

Variable search_text : str.

Lemma fold_find_step (search_words : list str) (acc : list interval) :
  fold_left (find_step search_text) search_words acc
  = acc ++ map (span search_text) (List.filter (hit search_text) search_words).
Proof.
  revert acc; induction search_words as [|w ws IH]; intros acc; simpl.
  - by rewrite app_nil_r.
  - rewrite IH. unfold find_step, hit.
    destruct (0 <=? find search_text w)%Z; simpl; [|done].
    by rewrite <- app_assoc.
Qed.

End FoundIntervals.

(** C10: the search loop records at most one interval per search word.
    The found intervals are, in the order of the words, the spans of the
    words that occur in the lower-cased text; the span of a word starts at
    its leftmost occurrence and has the word's length, whatever the number
    of its occurrences ("bc" occurs twice in "abcABC" and is recorded
    once). *)
Theorem found_intervals_first_occurrence :
  (forall (text : str) (search_words : list str),
     found_intervals text search_words
     = map (span (lower text)) (List.filter (hit (lower text)) search_words)) /\
  (forall (text : str) (search_words : list str),
     (List.length (found_intervals text search_words)
      <= List.length search_words)%nat) /\
  (forall (text word : str),
     (hit (lower text) word = false /\
      forall j, ~ occurs_at (lower text) word j) \/
     (hit (lower text) word = true /\
      occurs_at (lower text) word (fst (span (lower text) word)) /\
      forall j, occurs_at (lower text) word j ->
                (fst (span (lower text) word) <= j)%Z)) /\
  found_intervals (lit "abcABC") [lit "bc"] = [(1, 3)%Z].
Proof.
  assert (Heq : forall text search_words,
     found_intervals text search_words
     = map (span (lower text)) (List.filter (hit (lower text)) search_words)).
  { intros text search_words. unfold found_intervals.
    by rewrite fold_find_step. }
  split; [exact Heq|]. split.
  { intros text search_words. rewrite Heq, length_map.
    apply List.filter_length_le. }
  split; [|reflexivity].
  intros text word. unfold hit, span. simpl.
  destruct (find_spec (lower text) word) as [[Hr Hnone]|[Hocc Hmin]].
  - left. by rewrite Hr.
  - right. pose proof (occurs_at_nonneg _ _ _ Hocc) as Hpos.
    split; [by apply Z.leb_le | done].
Qed.

Lemma found_intervals_first_occurrence_witness :
  occurs_at (lower (lit "abcABC")) (lit "bc") 4 /\
  (fst (span (lower (lit "abcABC")) (lit "bc")) <= 4)%Z.
Proof.
  assert (H : occurs_at (lower (lit "abcABC")) (lit "bc") 4).
  { exists (lit "abca"), []. split; reflexivity. }
  split; [exact H|].
  destruct (proj1 (proj2 (proj2 found_intervals_first_occurrence))
              (lit "abcABC") (lit "bc")) as [[Hmiss _]|(_ & _ & Hmin)].
  - discriminate Hmiss.
  - exact (Hmin 4%Z H).
Defined.

(** ** Inserting the markup *)

Section Markup.

Lemma slice_index_nonneg (n : nat) (i : Z) :
  (0 <= i)%Z -> slice_index n i = Z.to_nat i.
Proof.
  intros Hi. unfold slice_index.
  destruct (i <? 0)%Z eqn:E; [|done]. apply Z.ltb_lt in E. lia.
Qed.

Lemma drop_take_glue {A : Type} (l : list A) (a b c : nat) :
  (a <= b)%nat -> (b <= c)%nat -> (c <= List.length l)%nat ->
  drop a (take b l) ++ drop b (take c l) = drop a (take c l).
Proof.
  intros Hab Hbc Hc.
  rewrite <- (take_drop b (take c l)) at 2.
  rewrite take_take, Nat.min_l by lia.
  rewrite drop_app_le; [done|]. rewrite length_take. lia.
Qed.

Lemma drop_take_rest {A : Type} (l : list A) (a b : nat) :
  (a <= b)%nat -> (b <= List.length l)%nat ->
  drop a (take b l) ++ drop b l = drop a l.
Proof.
  intros Hab Hb.
  rewrite <- (firstn_all l) at 2 3.
  rewrite drop_take_glue by lia. by rewrite firstn_all.
Qed.

Lemma chain_bounds (pos : Z) (ivs : list interval) (len : Z) :
  chain pos ivs len -> (0 <= pos <= len)%Z.
Proof.
  revert pos; induction ivs as [|[s e] ivs IH]; intros pos; simpl; [done|].
  intros (Hpos & Hse & Hrest). apply IH in Hrest. lia.
Qed.

Lemma chain_member (pos : Z) (ivs : list interval) (len s e : Z) :
  chain pos ivs len -> In (s, e) ivs -> (pos <= s <= e)%Z /\ (e <= len)%Z.
Proof.
  revert pos; induction ivs as [|[s0 e0] ivs IH]; intros pos; simpl; [done|].
  intros (Hpos & Hse & Hrest) [Heq|Hin].
  - injection Heq as -> ->. apply chain_bounds in Hrest. lia.
  - destruct (IH _ Hrest Hin). lia.
Qed.

Variables hl_tag close text : str.

Lemma insert_markup_cons (iv : interval) (ivs : list interval) :
  insert_markup hl_tag close text (iv :: ivs)
  = markup_step hl_tag close (insert_markup hl_tag close text ivs) iv.
Proof.
  unfold insert_markup. simpl. by rewrite fold_left_app.
Qed.

Lemma strip_segments (pos : Z) (ivs : list interval) :
  chain pos ivs (Z.of_nat (List.length text)) ->
  strip (segments hl_tag close text pos ivs) = slice_from text pos.
Proof.
  revert pos; induction ivs as [|[s e] ivs IH]; intros pos; simpl.
  - intros _. unfold strip. simpl. by rewrite app_nil_r.
  - intros (Hpos & Hse & Hrest). pose proof (chain_bounds _ _ _ Hrest) as He.
    unfold strip in *. simpl. rewrite IH by done.
    unfold slice, slice_from. rewrite !slice_index_nonneg by lia.
    rewrite drop_take_rest by lia. rewrite drop_take_rest by lia. done.
Qed.

Lemma insert_markup_segments (pos : Z) (ivs : list interval) :
  chain pos ivs (Z.of_nat (List.length text)) ->
  insert_markup hl_tag close text ivs
  = slice_to text pos ++ flatten (segments hl_tag close text pos ivs).
Proof.
  revert pos; induction ivs as [|[s e] ivs IH]; intros pos.
  - intros _. unfold insert_markup, flatten, slice_to. simpl. unfold slice_from.
    by rewrite app_nil_r, take_drop.
  - simpl. intros (Hpos & Hse & Hrest).
    pose proof (chain_bounds _ _ _ Hrest) as He.
    rewrite insert_markup_cons, (IH e Hrest).
    set (rest := flatten (segments hl_tag close text e ivs)).
    unfold markup_step, flatten. simpl. fold (flatten (segments hl_tag close text e ivs)).
    fold rest.
    unfold slice_to, slice, slice_from.
    rewrite !slice_index_nonneg by lia.
    assert (Hlen : List.length (take (Z.to_nat e) text) = Z.to_nat e).
    { rewrite length_take. lia. }
    rewrite (take_app_le (take (Z.to_nat e) text)) by lia.
    rewrite take_take, Nat.min_l by lia.
    rewrite (take_app_length' (take (Z.to_nat e) text)) by done.
    rewrite (drop_app_length' (take (Z.to_nat e) text)) by done.
    rewrite <- (take_drop (Z.to_nat pos) (take (Z.to_nat s) text)) at 1.
    rewrite take_take, Nat.min_l by lia.
    by rewrite <- !app_assoc.
Qed.

Lemma segments_member (pos : Z) (ivs : list interval) (s e : Z) :
  chain pos ivs (Z.of_nat (List.length text)) -> In (s, e) ivs ->
  exists before after,
    segments hl_tag close text pos ivs
    = before ++ [Delim hl_tag; Plain (slice text s e); Delim close] ++ after /\
    strip before = slice text pos s /\
    strip after = slice_from text e.
Proof.
  revert pos; induction ivs as [|[s0 e0] ivs IH]; intros pos; simpl; [done|].
  intros (Hpos & Hse & Hrest) [Heq|Hin].
  - injection Heq as -> ->.
    exists [Plain (slice text pos s)], (segments hl_tag close text e ivs).
    split; [done|]. split.
    + unfold strip. simpl. by rewrite app_nil_r.
    + by apply strip_segments.
  - destruct (IH _ Hrest Hin) as (before & after & Heq & Hb & Ha).
    destruct (chain_member _ _ _ _ _ Hrest Hin) as [Hs He].
    exists (Plain (slice text pos s0) :: Delim hl_tag :: Plain (slice text s0 e0)
              :: Delim close :: before), after.
    split; [by rewrite Heq|]. split; [|done].
    unfold strip in *. simpl. rewrite Hb.
    unfold slice. rewrite !slice_index_nonneg by lia.
    rewrite (drop_take_glue text (Z.to_nat s0)) by lia.
    rewrite drop_take_glue by lia. done.
Qed.

End Markup.

(** C3: for intervals in text order that do not overlap and lie inside the
    text, the reversed insertion loop yields exactly the left-to-right
    layout of the specification: the original text cut at the interval
    bounds with the opening and closing delimiters put around each
    interval's own characters.  Removing the delimiters gives the original
    text back, and every interval's characters stand between its two
    delimiters, after the text that preceded them and before the text that
    followed them in the original. *)
Theorem insert_markup_preserves_text
    (hl_tag close text : str) (ivs : list interval) :
  chain 0 ivs (Z.of_nat (List.length text)) ->
  insert_markup hl_tag close text ivs
  = flatten (segments hl_tag close text 0 ivs) /\
  strip (segments hl_tag close text 0 ivs) = text /\
  forall s e, In (s, e) ivs ->
    exists before after,
      segments hl_tag close text 0 ivs
      = before ++ [Delim hl_tag; Plain (slice text s e); Delim close] ++ after /\
      strip before = slice_to text s /\
      strip after = slice_from text e.
Proof.
  intros Hchain. split; [|split].
  - by rewrite (insert_markup_segments hl_tag close text 0 ivs Hchain).
  - by rewrite (strip_segments hl_tag close text 0 ivs Hchain).
  - intros s e Hin.
    destruct (segments_member hl_tag close text 0 ivs s e Hchain Hin)
      as (before & after & Heq & Hb & Ha).
    exists before, after. split; [done|]. split; [|done].
    rewrite Hb. destruct (chain_member 0 ivs _ s e Hchain Hin) as [Hs He].
    unfold slice, slice_to. by rewrite !slice_index_nonneg by lia.
Qed.

Lemma insert_markup_preserves_text_witness :
  chain 0 [(1, 3); (4, 4); (5, 6)]%Z (Z.of_nat (List.length (lit "abcABC"))) /\
  insert_markup (lit "<b>") (lit "</b>") (lit "abcABC") [(1, 3); (4, 4); (5, 6)]%Z
  = flatten (segments (lit "<b>") (lit "</b>") (lit "abcABC") 0
               [(1, 3); (4, 4); (5, 6)]%Z).
Proof.
  assert (H : chain 0 [(1, 3); (4, 4); (5, 6)]%Z
                (Z.of_nat (List.length (lit "abcABC")))).
  { simpl. lia. }
  split; [exact H|].
  exact (proj1 (insert_markup_preserves_text (lit "<b>") (lit "</b>")
                  (lit "abcABC") [(1, 3); (4, 4); (5, 6)]%Z H)).
Defined.

(** ** Sorting the found intervals *)

Section Sorting.

Lemma insert_by_start_perm (x : interval) (l : list interval) :
  Permutation (x :: l) (insert_by_start x l).
Proof.
  induction l as [|y l IH]; simpl; [done|].
  destruct (fst x <=? fst y)%Z; [done|].
  rewrite perm_swap. by constructor.
Qed.

Lemma sort_by_start_perm (l : list interval) :
  Permutation l (sort_by_start l).
Proof.
  induction l as [|x l IH]; simpl; [done|].
  rewrite <- insert_by_start_perm. by constructor.
Qed.

Lemma insert_by_start_hd (x a : interval) (l : list interval) :
  start_le a x -> HdRel start_le a l -> HdRel start_le a (insert_by_start x l).
Proof.
  intros Hax Hal. destruct l as [|y l]; simpl; [by constructor|].
  destruct (fst x <=? fst y)%Z; constructor; [done|].
  by inversion Hal.
Qed.

Lemma insert_by_start_sorted (x : interval) (l : list interval) :
  Sorted start_le l -> Sorted start_le (insert_by_start x l).
Proof.
  induction 1 as [|y l Hl IH Hhd]; simpl; [by repeat constructor|].
  destruct (fst x <=? fst y)%Z eqn:E.
  - apply Z.leb_le in E. constructor; [by constructor|]. by constructor.
  - apply Z.leb_gt in E. constructor; [done|].
    apply insert_by_start_hd; [unfold start_le; lia | done].
Qed.

Lemma sort_by_start_sorted (l : list interval) :
  Sorted start_le (sort_by_start l).
Proof.
  induction l as [|x l IH]; simpl; [constructor|].
  by apply insert_by_start_sorted.
Qed.

(** A list already in start order is left as it is. *)
Lemma sort_by_start_fixed (l : list interval) :
  Sorted start_le l -> sort_by_start l = l.
Proof.
  induction 1 as [|x l Hl IH Hhd]; simpl; [done|].
  rewrite IH. destruct Hhd as [|y l' Hxy]; simpl; [done|].
  unfold start_le in Hxy. apply Z.leb_le in Hxy. by rewrite Hxy.
Qed.

Lemma sort_by_start_strongly (l : list interval) :
  StronglySorted start_le (sort_by_start l).
Proof.
  apply Sorted_StronglySorted; [|apply sort_by_start_sorted].
  intros a b c. unfold start_le. lia.
Qed.

End Sorting.

(** ** The merge loop *)

Section MergeLoop.

Lemma merge_loop_coalesce (rest closed : list interval) (cur : interval) :
  (let '(c, k) := fold_left merge_step rest (closed, cur) in c ++ [k])
  = closed ++ coalesce cur rest.
Proof.
  revert closed cur; induction rest as [|iv rest IH]; intros closed cur; simpl.
  - done.
  - destruct (fst iv <=? snd cur)%Z.
    + apply IH.
    + rewrite IH. by rewrite <- app_assoc.
Qed.

Lemma merge_sorted_coalesce (first : interval) (rest : list interval) :
  merge_sorted (first :: rest) = coalesce first rest.
Proof. unfold merge_sorted. apply (merge_loop_coalesce rest [] first). Qed.

Lemma coalesce_head (cur : interval) (rest : list interval) :
  exists e tl, coalesce cur rest = (fst cur, e) :: tl.
Proof.
  revert cur; induction rest as [|iv rest IH]; intros [s e]; simpl.
  - by eexists _, _.
  - destruct (fst iv <=? e)%Z.
    + destruct (IH (s, Z.max e (snd iv))) as (e' & tl & ->). by eexists _, _.
    + by eexists _, _.
Qed.

Lemma coalesce_starts (cur : interval) (rest : list interval) :
  StronglySorted start_le (cur :: rest) ->
  Forall (start_le cur) (coalesce cur rest).
Proof.
  revert cur; induction rest as [|iv rest IH]; intros cur Hs; simpl.
  - constructor; [unfold start_le; lia | constructor].
  - apply StronglySorted_inv in Hs as [Hrest Hall].
    pose proof Hrest as Hrest'.
    apply StronglySorted_inv in Hrest' as [Hrest'' Hall'].
    inversion Hall as [|? ? Hci Hcr]; subst.
    destruct (fst iv <=? snd cur)%Z.
    + apply (IH (fst cur, Z.max (snd cur) (snd iv))).
      constructor; [done|]. done.
    + constructor; [unfold start_le; lia|].
      eapply Forall_impl; [apply (IH iv Hrest)|].
      intros o Ho. unfold start_le in *. lia.
Qed.

Lemma coalesce_rebase (cur iv : interval) (rest : list interval) :
  StronglySorted start_le (cur :: iv :: rest) ->
  StronglySorted start_le ((fst cur, Z.max (snd cur) (snd iv)) :: rest).
Proof.
  intros Hs. apply StronglySorted_inv in Hs as [Hrest Hall].
  apply StronglySorted_inv in Hrest as [Hrest Hall'].
  inversion Hall; subst. by constructor.
Qed.

(** The output keeps the start order, and every interval ends strictly
    before any later one starts. *)
Lemma coalesce_sorted (cur : interval) (rest : list interval) :
  StronglySorted start_le (cur :: rest) ->
  StronglySorted start_le (coalesce cur rest) /\
  StronglySorted apart (coalesce cur rest).
Proof.
  revert cur; induction rest as [|iv rest IH]; intros cur Hs; simpl.
  - split; repeat constructor.
  - destruct (fst iv <=? snd cur)%Z eqn:E.
    + apply IH. by apply coalesce_rebase.
    + apply Z.leb_gt in E.
      pose proof Hs as Hs'. apply StronglySorted_inv in Hs' as [Hrest Hall].
      inversion Hall as [|? ? Hci Hcr]; subst.
      destruct (IH iv Hrest) as [IH1 IH2].
      pose proof (coalesce_starts iv rest Hrest) as Hst.
      split; constructor; try done.
      * eapply Forall_impl; [exact Hst|]. intros o Ho.
        unfold start_le in *. lia.
      * eapply Forall_impl; [exact Hst|]. intros o Ho.
        unfold start_le, apart in *. lia.
Qed.

(** Separated intervals are left alone by the loop. *)
Lemma coalesce_apart (cur : interval) (rest : list interval) :
  StronglySorted apart (cur :: rest) -> coalesce cur rest = cur :: rest.
Proof.
  revert cur; induction rest as [|iv rest IH]; intros cur Hs; simpl; [done|].
  apply StronglySorted_inv in Hs as [Hrest Hall].
  inversion Hall as [|? ? Hci Hcr]; subst.
  unfold apart in Hci. apply Z.leb_gt in Hci. rewrite Hci.
  by rewrite IH.
Qed.

Lemma merge_intervals_sorted (found : list interval) :
  StronglySorted start_le (merge_intervals found) /\
  StronglySorted apart (merge_intervals found).
Proof.
  unfold merge_intervals.
  pose proof (sort_by_start_strongly found) as Hs.
  destruct (sort_by_start found) as [|first rest].
  - split; constructor.
  - rewrite merge_sorted_coalesce. by apply coalesce_sorted.
Qed.

End MergeLoop.

(** C7: merging is idempotent.  The output of [merge_intervals] is in
    start order with every interval ending strictly before the next one
    starts, so sorting it again changes nothing and the loop finds nothing
    to coalesce. *)
Theorem merge_intervals_idempotent (found : list interval) :
  merge_intervals (merge_intervals found) = merge_intervals found.
Proof.
  destruct (merge_intervals_sorted found) as [Hstart Hapart].
  set (out := merge_intervals found) in *.
  unfold merge_intervals at 1.
  rewrite sort_by_start_fixed by (by apply StronglySorted_Sorted).
  destruct out as [|first rest]; [done|].
  rewrite merge_sorted_coalesce. by apply coalesce_apart.
Qed.

(** ** What the merged intervals are made of *)

Section Union.

Lemma within_refl (a : interval) : within a a.
Proof. unfold within. lia. Qed.

Lemma within_trans (a b c : interval) : within a b -> within b c -> within a c.
Proof. unfold within. lia. Qed.

Lemma merged_of_members (inp inp' out : list interval) :
  (forall i, In i inp <-> In i inp') -> merged_of inp out -> merged_of inp' out.
Proof.
  intros Hsame (Hwf & Hin & Hout). split; [done|]. split.
  - intros i Hi. apply Hin. by apply Hsame.
  - intros o Ho. destruct (Hout o Ho) as ((i1 & H1 & H1') & (i2 & H2 & H2') & Hc).
    split; [exists i1; split; [by apply Hsame | done]|].
    split; [exists i2; split; [by apply Hsame | done]|].
    intros x Hx. destruct (Hc x Hx) as (i & Hi & Hi').
    exists i. split; [by apply Hsame | done].
Qed.

(** Coalescing [cur] with the next interval keeps what the output is made
    of: the two of them make up the widened interval. *)
Lemma merged_of_absorb (cur iv : interval) (rest out : list interval) :
  wf cur -> wf iv -> (fst cur <= fst iv)%Z -> (fst iv <= snd cur)%Z ->
  merged_of ((fst cur, Z.max (snd cur) (snd iv)) :: rest) out ->
  merged_of (cur :: iv :: rest) out.
Proof.
  intros Hc Hi Hle Htouch (Hwf & Hin & Hout).
  set (wide := (fst cur, Z.max (snd cur) (snd iv))) in *.
  assert (Hcw : within cur wide) by (unfold within, wide; simpl; lia).
  assert (Hiw : within iv wide) by (unfold within, wide; simpl; lia).
  split; [done|]. split.
  - intros i [<-|[<-|Hi']].
    + destruct (Hin wide (or_introl eq_refl)) as (o & Ho & Hw).
      exists o. split; [done | by eapply within_trans].
    + destruct (Hin wide (or_introl eq_refl)) as (o & Ho & Hw).
      exists o. split; [done | by eapply within_trans].
    + apply Hin. by right.
  - intros o Ho.
    destruct (Hout o Ho) as ((i1 & H1 & W1 & E1) & (i2 & H2 & W2 & E2) & Hcov).
    split; [|split].
    + destruct H1 as [<-|H1].
      * exists cur. split; [by left|]. split; [by eapply within_trans | done].
      * exists i1. split; [by right; right | done].
    + destruct H2 as [<-|H2].
      * destruct (Z.max_spec (snd cur) (snd iv)) as [[_ Hm]|[_ Hm]].
        -- exists iv. split; [by right; left|].
           split; [by eapply within_trans|]. simpl in E2. lia.
        -- exists cur. split; [by left|].
           split; [by eapply within_trans|]. simpl in E2. lia.
      * exists i2. split; [by right; right | done].
    + intros x Hx. destruct (Hcov x Hx) as (i & [<-|Hi'] & Wi & Ci).
      * unfold covers in Ci. simpl in Ci.
        destruct (decide (x < snd cur)%Z).
        -- exists cur. split; [by left|].
           split; [by eapply within_trans | unfold covers; lia].
        -- exists iv. split; [by right; left|].
           split; [by eapply within_trans | unfold covers; lia].
      * exists i. split; [by right; right | done].
Qed.

Lemma merged_of_close (cur : interval) (rest out : list interval) :
  wf cur -> merged_of rest out -> merged_of (cur :: rest) (cur :: out).
Proof.
  intros Hc (Hwf & Hin & Hout). split; [by constructor|]. split.
  - intros i [<-|Hi].
    + exists cur. split; [by left | apply within_refl].
    + destruct (Hin i Hi) as (o & Ho & Hw). exists o. split; [by right | done].
  - intros o [<-|Ho].
    + split; [|split].
      * exists cur. split; [by left|]. split; [apply within_refl | done].
      * exists cur. split; [by left|]. split; [apply within_refl | done].
      * intros x Hx. exists cur. split; [by left|].
        split; [apply within_refl | done].
    + destruct (Hout o Ho) as ((i1 & H1 & H1') & (i2 & H2 & H2') & Hcov).
      split; [exists i1; split; [by right | done]|].
      split; [exists i2; split; [by right | done]|].
      intros x Hx. destruct (Hcov x Hx) as (i & Hi & Hi').
      exists i. split; [by right | done].
Qed.

Lemma coalesce_merged_of (cur : interval) (rest : list interval) :
  wf cur -> Forall wf rest -> StronglySorted start_le (cur :: rest) ->
  merged_of (cur :: rest) (coalesce cur rest).
Proof.
  revert cur; induction rest as [|iv rest IH]; intros cur Hc Hr Hs; simpl.
  - apply merged_of_close; [done|].
    split; [constructor|]. split; [intros i []|intros o []].
  - inversion Hr as [|? ? Hi Hr']; subst.
    pose proof Hs as Hs'. apply StronglySorted_inv in Hs' as [Hrest Hall].
    inversion Hall as [|? ? Hci Hcr]; subst. unfold start_le in Hci.
    destruct (fst iv <=? snd cur)%Z eqn:E.
    + apply Z.leb_le in E. apply merged_of_absorb; try done.
      apply IH; [unfold wf in *; simpl; lia | done | by apply coalesce_rebase].
    + apply merged_of_close; [done|]. by apply IH.
Qed.

Lemma merge_intervals_merged_of (found : list interval) :
  Forall wf found -> merged_of found (merge_intervals found).
Proof.
  intros Hwf. unfold merge_intervals.
  pose proof (sort_by_start_perm found) as Hperm.
  pose proof (sort_by_start_strongly found) as Hs.
  assert (Hwf' : Forall wf (sort_by_start found)).
  { by rewrite <- Hperm. }
  apply (merged_of_members (sort_by_start found)).
  { intros i. split; intros Hi.
    - by eapply Permutation_in; [symmetry|].
    - by eapply Permutation_in. }
  destruct (sort_by_start found) as [|first rest].
  - split; [constructor|]. split; [intros i []|intros o []].
  - rewrite merge_sorted_coalesce.
    inversion Hwf'; subst. by apply coalesce_merged_of.
Qed.

Lemma sorted_pairwise {A : Type} (R : A -> A -> Prop) (l : list A) :
  StronglySorted R l ->
  forall a b, In a l -> In b l -> a = b \/ R a b \/ R b a.
Proof.
  induction 1 as [|x l Hl IH Hall]; intros a b Ha Hb; [destruct Ha|].
  rewrite List.Forall_forall in Hall.
  destruct Ha as [<-|Ha], Hb as [<-|Hb]; auto.
Qed.

Lemma sorted_starts_before (out : list interval) :
  Forall wf out -> StronglySorted apart out -> StronglySorted starts_before out.
Proof.
  intros Hwf Hs. induction Hs as [|x l Hl IH Hall]; [constructor|].
  inversion Hwf as [|? ? Hx Hwf']; subst.
  constructor; [by apply IH|].
  eapply Forall_impl; [exact Hall|]. intros o Ho.
  unfold apart, starts_before, wf in *. lia.
Qed.

(** An input that overlaps or touches an output lies inside it. *)
Lemma touching_within (inp out : list interval) (i o : interval) :
  StronglySorted apart out -> merged_of inp out ->
  In i inp -> In o out -> touches i o -> within i o.
Proof.
  intros Hs (Hwf & Hin & _) Hi Ho [Ht1 Ht2].
  destruct (Hin i Hi) as (o' & Ho' & [Hw1 Hw2]).
  destruct (sorted_pairwise _ _ Hs o o' Ho Ho') as [->|[Hap|Hap]].
  - done.
  - unfold apart in Hap. lia.
  - unfold apart in Hap. lia.
Qed.

End Union.

(** C2: for intervals with start <= end, the merged output is sorted by
    start, every output interval ends strictly before each later one starts
    (so no two overlap or touch), and each output interval is the union of
    the inputs that overlap or touch it: its characters are exactly the
    characters of those inputs, it starts where one of them starts and ends
    where one of them ends, and each of them lies inside it; every input
    lies inside some output interval. *)
Theorem merge_intervals_union (found : list interval) :
  Forall wf found ->
  StronglySorted starts_before (merge_intervals found) /\
  StronglySorted apart (merge_intervals found) /\
  (forall o, In o (merge_intervals found) ->
     (forall x, covers o x <->
                exists i, In i found /\ touches i o /\ covers i x) /\
     (exists i, In i found /\ touches i o /\ fst i = fst o) /\
     (exists i, In i found /\ touches i o /\ snd i = snd o) /\
     (forall i, In i found -> touches i o -> within i o)) /\
  (forall i, In i found -> exists o, In o (merge_intervals found) /\ within i o).
Proof.
  intros Hwf.
  destruct (merge_intervals_sorted found) as [_ Hapart].
  pose proof (merge_intervals_merged_of found Hwf) as Hm.
  pose proof Hm as (Hwfo & Hin & Hout).
  assert (Htouch : forall i o, In i found -> within i o -> touches i o).
  { intros i o Hi [Hw1 Hw2]. rewrite List.Forall_forall in Hwf.
    specialize (Hwf i Hi). unfold wf, touches in *. lia. }
  split; [by apply sorted_starts_before|]. split; [done|]. split; [|done].
  intros o Ho.
  destruct (Hout o Ho) as ((i1 & H1 & W1 & E1) & (i2 & H2 & W2 & E2) & Hcov).
  split; [|split; [|split]].
  - intros x. split.
    + intros Hx. destruct (Hcov x Hx) as (i & Hi & Wi & Ci).
      exists i. split; [done|]. split; [by apply Htouch | done].
    + intros (i & Hi & Ti & Ci).
      pose proof (touching_within found _ i o Hapart Hm Hi Ho Ti) as [Hw1 Hw2].
      unfold covers in *. lia.
  - exists i1. split; [done|]. split; [by apply Htouch | done].
  - exists i2. split; [done|]. split; [by apply Htouch | done].
  - intros i Hi Ti. by eapply touching_within.
Qed.

Lemma merge_intervals_union_witness :
  Forall wf [(2, 5); (0, 3); (8, 10)]%Z /\
  StronglySorted apart (merge_intervals [(2, 5); (0, 3); (8, 10)]%Z).
Proof.
  assert (H : Forall wf [(2, 5); (0, 3); (8, 10)]%Z).
  { repeat constructor; unfold wf; simpl; lia. }
  split; [exact H|].
  exact (proj1 (proj2 (merge_intervals_union [(2, 5); (0, 3); (8, 10)]%Z H))).
Defined.

(** ** The merged intervals depend on the inputs only as a collection *)

Section OrderIndependence.

(** Two lists in strict start order with the same members are equal. *)
Lemma sorted_same_members (l1 l2 : list interval) :
  StronglySorted starts_before l1 -> StronglySorted starts_before l2 ->
  (forall x, In x l1 <-> In x l2) -> l1 = l2.
Proof.
  intros H1; revert l2; induction H1 as [|a t1 Ht1 IH Ha]; intros l2 H2 Hsame.
  - destruct l2 as [|b t2]; [done|].
    destruct (proj2 (Hsame b) (or_introl eq_refl)).
  - destruct H2 as [|b t2 Ht2 Hb].
    { destruct (proj1 (Hsame a) (or_introl eq_refl)). }
    rewrite List.Forall_forall in Ha, Hb.
    assert (Hab : a = b).
    { destruct (proj1 (Hsame a) (or_introl eq_refl)) as [Heq|Hin]; [done|].
      destruct (proj2 (Hsame b) (or_introl eq_refl)) as [Heq|Hin']; [done|].
      specialize (Ha _ Hin'). specialize (Hb _ Hin).
      unfold starts_before in *. lia. }
    subst b. f_equal. apply IH; [done|].
    intros x. split; intros Hx.
    + destruct (proj1 (Hsame x) (or_intror Hx)) as [<-|Hin]; [|done].
      specialize (Ha _ Hx). unfold starts_before in Ha. lia.
    + destruct (proj2 (Hsame x) (or_intror Hx)) as [<-|Hin]; [|done].
      specialize (Hb _ Hx). unfold starts_before in Hb. lia.
Qed.

(** An interval of one merge lies inside an interval of any other merge of
    the same inputs. *)
Lemma merged_of_within (inp out1 out2 : list interval) (o : interval) :
  Forall wf inp -> StronglySorted apart out2 ->
  merged_of inp out1 -> merged_of inp out2 ->
  In o out1 -> exists o', In o' out2 /\ within o o'.
Proof.
  intros Hwf Hs2 (_ & _ & Hout1) (_ & Hin2 & _) Ho.
  rewrite List.Forall_forall in Hwf.
  destruct (Hout1 o Ho) as ((i0 & Hi0 & _ & Estart) & _ & Hcov).
  destruct (Hin2 i0 Hi0) as (o' & Ho' & [Hw1 Hw2]).
  exists o'. split; [done|].
  pose proof (Hwf i0 Hi0) as Hwf0. unfold wf in Hwf0.
  split; [lia|].
  destruct (decide (snd o <= snd o')%Z) as [|Hlt]; [done|]. exfalso.
  destruct (Hcov (snd o')) as (j & Hj & _ & [Cj1 Cj2]).
  { unfold covers. lia. }
  destruct (Hin2 j Hj) as (o'' & Ho'' & [Hv1 Hv2]).
  destruct (sorted_pairwise _ _ Hs2 o' o'' Ho' Ho'') as [<-|[Hap|Hap]];
    unfold apart in *; lia.
Qed.

Lemma merged_of_subset (inp out1 out2 : list interval) :
  Forall wf inp ->
  StronglySorted apart out1 -> StronglySorted apart out2 ->
  merged_of inp out1 -> merged_of inp out2 ->
  forall o, In o out1 -> In o out2.
Proof.
  intros Hwf Hs1 Hs2 Hm1 Hm2 o Ho.
  destruct (merged_of_within inp out1 out2 o Hwf Hs2 Hm1 Hm2 Ho)
    as (o' & Ho' & [Ha1 Ha2]).
  destruct (merged_of_within inp out2 out1 o' Hwf Hs1 Hm2 Hm1 Ho')
    as (o2 & Ho2 & [Hb1 Hb2]).
  destruct Hm1 as (Hwf1 & _). rewrite List.Forall_forall in Hwf1.
  pose proof (Hwf1 o Ho) as Hwo. unfold wf in Hwo.
  assert (o = o2) as <-.
  { destruct (sorted_pairwise _ _ Hs1 o o2 Ho Ho2) as [Heq|[Hap|Hap]];
      [done | unfold apart in Hap; lia | unfold apart in Hap; lia]. }
  replace o with o'; [done|].
  destruct o as [s e], o' as [s' e']. simpl in *. f_equal; lia.
Qed.

Lemma merged_of_unique (inp out1 out2 : list interval) :
  Forall wf inp ->
  StronglySorted apart out1 -> StronglySorted apart out2 ->
  merged_of inp out1 -> merged_of inp out2 ->
  out1 = out2.
Proof.
  intros Hwf Hs1 Hs2 Hm1 Hm2.
  apply sorted_same_members.
  - apply sorted_starts_before; [by destruct Hm1 | done].
  - apply sorted_starts_before; [by destruct Hm2 | done].
  - intros o. split; by apply (merged_of_subset inp).
Qed.

Lemma merge_intervals_permutation (found found' : list interval) :
  Forall wf found -> Permutation found found' ->
  merge_intervals found = merge_intervals found'.
Proof.
  intros Hwf Hperm.
  assert (Hwf' : Forall wf found') by (by rewrite <- Hperm).
  apply (merged_of_unique found); try done.
  - apply merge_intervals_sorted.
  - apply merge_intervals_sorted.
  - by apply merge_intervals_merged_of.
  - apply (merged_of_members found').
    + intros i. split; intros Hi.
      * by eapply Permutation_in; [symmetry|].
      * by eapply Permutation_in.
    + by apply merge_intervals_merged_of.
Qed.

(** The search loop only produces intervals with start <= end. *)
Lemma found_intervals_wf (text : str) (search_words : list str) :
  Forall wf (found_intervals text search_words).
Proof.
  unfold found_intervals. rewrite fold_find_step. simpl.
  apply Forall_map, Forall_forall. intros w _. unfold wf, span. simpl. lia.
Qed.

End OrderIndependence.

(** C6: merging [(0,3); (2,5); (8,10)] gives [(0,5); (8,10)], merging
    nothing gives nothing, merging [(5,8); (0,2)] gives [(0,2); (5,8)], and
    the output does not depend on the order of the input intervals (each
    with start <= end): any two arrangements of the same intervals merge to
    the same list. *)
Theorem merge_intervals_order_independent :
  merge_intervals [(0, 3); (2, 5); (8, 10)]%Z = [(0, 5); (8, 10)]%Z /\
  merge_intervals [] = [] /\
  merge_intervals [(5, 8); (0, 2)]%Z = [(0, 2); (5, 8)]%Z /\
  (forall found found' : list interval,
     Forall wf found -> Permutation found found' ->
     merge_intervals found = merge_intervals found').
Proof.
  do 3 (split; [reflexivity|]). exact merge_intervals_permutation.
Qed.

Lemma merge_intervals_order_independent_witness :
  Forall wf [(5, 8); (0, 2); (1, 6)]%Z /\
  Permutation [(5, 8); (0, 2); (1, 6)]%Z [(1, 6); (5, 8); (0, 2)]%Z /\
  merge_intervals [(5, 8); (0, 2); (1, 6)]%Z
  = merge_intervals [(1, 6); (5, 8); (0, 2)]%Z.
Proof.
  assert (H : Forall wf [(5, 8); (0, 2); (1, 6)]%Z).
  { repeat constructor; unfold wf; simpl; lia. }
  assert (P : Permutation [(5, 8); (0, 2); (1, 6)]%Z [(1, 6); (5, 8); (0, 2)]%Z).
  { apply (Permutation_cons_app [(1, 6)%Z] [(0, 2)%Z]). simpl.
    apply (Permutation_cons_app [(1, 6)%Z] []). reflexivity. }
  split; [exact H|]. split; [exact P|].
  exact (proj2 (proj2 (proj2 merge_intervals_order_independent)) _ _ H P).
Defined.

(** ** The icon fallback chain *)

Section IconChain.

Context {pixbuf : Type} (tk : toolkit pixbuf).

Lemma load_icon_unfold (icon_name : str) (size : option IconSize)
    (pixel_size : option Z) :
  load_icon tk icon_name size pixel_size
  = let '(width, height) := requested tk size pixel_size in
    match new_from_file_at_size tk icon_name width height with
    | inr p => inr p
    | inl OtherError => inl OtherError
    | inl _ =>
        match theme_load_icon tk icon_name width with
        | inr image => inr image
        | inl OtherError => inl OtherError
        | inl _ => new_blank tk width height
        end
    end.
Proof. reflexivity. Qed.

(** The file is tried first: when the name is a readable image file, that
    pixbuf is returned and the icon theme is not consulted. *)
Lemma load_icon_file_first (icon_name : str) (size : option IconSize)
    (pixel_size : option Z) (p : pixbuf) :
  new_from_file_at_size tk icon_name (fst (requested tk size pixel_size))
    (snd (requested tk size pixel_size)) = inr p ->
  load_icon tk icon_name size pixel_size = inr p.
Proof.
  rewrite load_icon_unfold. destruct (requested tk size pixel_size) as [w h].
  simpl. by intros ->.
Qed.

(** When the toolkit calls fail only with [GLib.Error] or [TypeError] and
    the blank pixbuf can be made, [load_icon] returns a pixbuf. *)
Lemma load_icon_returns (icon_name : str) (size : option IconSize)
    (pixel_size : option Z) :
  (forall w h, new_from_file_at_size tk icon_name w h <> inl OtherError) ->
  (forall w, theme_load_icon tk icon_name w <> inl OtherError) ->
  (exists blank, new_blank tk (fst (requested tk size pixel_size))
                   (snd (requested tk size pixel_size)) = inr blank) ->
  exists p, load_icon tk icon_name size pixel_size = inr p.
Proof.
  intros Hfile Htheme [blank Hblank]. rewrite load_icon_unfold.
  destruct (requested tk size pixel_size) as [w h]. simpl in Hblank.
  specialize (Hfile w h). specialize (Htheme w).
  destruct (new_from_file_at_size tk icon_name w h) as [[| |]|p];
    [| |done|by eexists].
  - destruct (theme_load_icon tk icon_name w) as [[| |]|image];
      [by eexists|by eexists|done|by eexists].
  - destruct (theme_load_icon tk icon_name w) as [[| |]|image];
      [by eexists|by eexists|done|by eexists].
Qed.

End IconChain.

(** C8: the chain runs file path, then theme icon, then blank pixbuf.  For
    a name that is both a readable image file and an icon of the theme,
    [load_icon] returns the pixbuf of the file, not the theme icon; the
    theme icon is returned only when the file cannot be loaded, and the
    blank pixbuf only when both fail. *)
Theorem load_icon_prefers_file :
  let both := toy_toolkit [lit "firefox"] [lit "firefox"] in
  let themed := toy_toolkit [] [lit "firefox"] in
  theme_load_icon both (lit "firefox") (Some 24%Z)
  = inr (FromTheme (lit "firefox") 24) /\
  load_icon_default both (lit "firefox")
  = inr (FromFile (lit "firefox") 24 24) /\
  load_icon_default themed (lit "firefox")
  = inr (FromTheme (lit "firefox") 24) /\
  load_icon_default themed (lit "missing") = inr (Blank 24 24).
Proof. repeat split; reflexivity. Qed.

(** ** Loading the settings *)

Section LoadSettingsFacts.

Variable int_of_str : str -> option Z.
Variables INITIAL_PAGE_FEATURE SORT_RUNNING_FEATURE : string.

Lemma read_initial_page_value (features : gmap string string) :
  read_initial_page int_of_str INITIAL_PAGE_FEATURE features
  = inr match features !! INITIAL_PAGE_FEATURE with
        | Some v => match int_of_str (lit v) with
                    | Some page => page
                    | None => 1%Z
                    end
        | None => 1%Z
        end.
Proof.
  unfold read_initial_page, features_get.
  destruct (features !! INITIAL_PAGE_FEATURE) as [v|]; simpl; [|done].
  by destruct (int_of_str (lit v)).
Qed.

Lemma load_settings_page (self : AppMenu) (features : gmap string string) :
  exists app,
    load_settings int_of_str INITIAL_PAGE_FEATURE SORT_RUNNING_FEATURE self
      features = inr app /\
    initial_page app
    = match features !! INITIAL_PAGE_FEATURE with
      | Some v => match int_of_str (lit v) with
                  | Some page => page
                  | None => 1%Z
                  end
      | None => 1%Z
      end.
Proof.
  unfold load_settings. rewrite read_initial_page_value. by eexists.
Qed.

End LoadSettingsFacts.

(** C9: whatever [int()] accepts, [load_settings] always returns: the
    [ValueError] of [int()] is caught inside it and nothing else is
    raised.  The initial page is the number [int()] makes of the feature
    value; it is the default 1 when the stored string does not parse as an
    integer, and also when the feature is missing. *)
Theorem load_settings_initial_page
    (int_of_str : str -> option Z)
    (INITIAL_PAGE_FEATURE SORT_RUNNING_FEATURE : string) (self : AppMenu) :
  (forall features : gmap string string,
     exists app,
       load_settings int_of_str INITIAL_PAGE_FEATURE SORT_RUNNING_FEATURE self
         features = inr app /\
       initial_page app
       = match features !! INITIAL_PAGE_FEATURE with
         | Some v => match int_of_str (lit v) with
                     | Some page => page
                     | None => 1%Z
                     end
         | None => 1%Z
         end) /\
  (forall (features : gmap string string) (v : string),
     features !! INITIAL_PAGE_FEATURE = Some v ->
     int_of_str (lit v) = None ->
     exists app,
       load_settings int_of_str INITIAL_PAGE_FEATURE SORT_RUNNING_FEATURE self
         features = inr app /\
       initial_page app = 1%Z) /\
  (forall features : gmap string string,
     features !! INITIAL_PAGE_FEATURE = None ->
     exists app,
       load_settings int_of_str INITIAL_PAGE_FEATURE SORT_RUNNING_FEATURE self
         features = inr app /\
       initial_page app = 1%Z).
Proof.
  split; [apply load_settings_page|]. split.
  - intros features v Hv Hparse.
    destruct (load_settings_page int_of_str INITIAL_PAGE_FEATURE
                SORT_RUNNING_FEATURE self features) as (app & Heq & Hpage).
    exists app. split; [done|]. by rewrite Hpage, Hv, Hparse.
  - intros features Hnone.
    destruct (load_settings_page int_of_str INITIAL_PAGE_FEATURE
                SORT_RUNNING_FEATURE self features) as (app & Heq & Hpage).
    exists app. split; [done|]. by rewrite Hpage, Hnone.
Qed.

Lemma load_settings_initial_page_witness :
  exists app,
    load_settings toy_int "page" "sort" (mkAppMenu 3 false ∅)
      {[ "page"%string := "two"%string ]} = inr app /\
    initial_page app = 1%Z.
Proof.
  apply (proj1 (proj2 (load_settings_initial_page toy_int "page" "sort"
                         (mkAppMenu 3 false ∅)))
           {[ "page"%string := "two"%string ]} "two"%string).
  - apply lookup_singleton_eq.
  - reflexivity.
Defined.

(** * Further properties of the code *)

(** ** text_search *)

Section MatcherMore.

Lemma contains_iff (sub s : str) :
  contains sub s = true <-> exists i, occurs_at s sub i.
Proof.
  induction s as [|c s IH]; simpl.
  - rewrite orb_false_r, <- occurs_at_nil_head. split; [by exists 0%Z|].
    intros [i (pre & post & Heq & Hlen)].
    symmetry in Heq. apply app_eq_nil in Heq as [-> Heq].
    apply app_eq_nil in Heq as [-> ->]. by exists [], [].
  - rewrite orb_true_iff, IH, <- occurs_at_nil_head. split.
    + intros [H|[i H]]; [by exists 0%Z|].
      exists (i + 1)%Z. pose proof (occurs_at_nonneg _ _ _ H).
      apply occurs_at_cons; [lia|]. by replace (i + 1 - 1)%Z with i by lia.
    + intros [i H]. pose proof (occurs_at_nonneg _ _ _ H).
      destruct (decide (i = 0%Z)) as [->|Hne]; [by left|].
      right. exists (i - 1)%Z. apply occurs_at_cons in H; [done | lia].
Qed.

Lemma startswith_contains (s p : str) :
  startswith s p = true -> contains p s = true.
Proof. intros H. destruct s; simpl; by rewrite H. Qed.

Lemma text_search_loop_positive (search_word : str) (text_words : list str) :
  (0 < text_search_loop search_word text_words)%Q <->
  exists w, In w text_words /\ contains search_word w = true.
Proof.
  induction text_words as [|w ws IH]; simpl.
  - split; [intros H; by apply Qlt_irrefl in H | by intros (w & [] & _)].
  - destruct (startswith w search_word) eqn:E1.
    { split; [|done]. intros _. exists w. split; [by left|].
      by apply startswith_contains. }
    destruct (contains search_word w) eqn:E2.
    { split; [|done]. intros _. exists w. by split; [left|]. }
    rewrite IH. split.
    + intros (v & Hv & Hc). exists v. by split; [right|].
    + intros (v & [<-|Hv] & Hc); [congruence|]. by exists v.
Qed.

Lemma text_search_loop_first (search_word : str) (before after : list str)
    (w : str) :
  Forall (fun v => contains search_word v = false) before ->
  contains search_word w = true ->
  text_search_loop search_word (before ++ w :: after)
  = if startswith w search_word then 1%Q else (1 # 2)%Q.
Proof.
  intros Hbefore Hw. induction Hbefore as [|v vs Hv _ IH]; simpl.
  - by rewrite Hw.
  - destruct (startswith v search_word) eqn:E.
    { apply startswith_contains in E. congruence. }
    by rewrite Hv.
Qed.

Lemma text_search_found (search_word : str) (text_words : list str) :
  (0 < text_search search_word text_words)%Q <->
  search_word <> [] /\
  exists w i, In w text_words /\ occurs_at w search_word i.
Proof.
  unfold text_search. destruct search_word as [|c q]; simpl is_empty; cbv iota.
  - split; [intros H; by apply Qlt_irrefl in H | by intros [H _]].
  - rewrite text_search_loop_positive. split.
    + intros (w & Hw & Hc). split; [done|].
      apply contains_iff in Hc as [i Hi]. by exists w, i.
    + intros (_ & w & i & Hw & Hi). exists w. split; [done|].
      apply contains_iff. by exists i.
Qed.

End MatcherMore.

(** X1: the rank is greater than 0 exactly when the search word is not
    empty and occurs somewhere inside one of the words of the text. *)
Theorem text_search_positive_iff_found (search_word : str) (text_words : list str) :
  (0 < text_search search_word text_words)%Q <->
  search_word <> [] /\
  exists w i, In w text_words /\ occurs_at w search_word i.
Proof. apply text_search_found. Qed.

(** X2: the first word of the text in which the search word occurs
    decides the rank: 1 when that word starts with the search word, 0.5
    otherwise, whatever the words after it. *)
Theorem text_search_first_occurrence_decides
    (search_word : str) (before after : list str) (w : str) :
  search_word <> [] ->
  (forall v i, In v before -> ~ occurs_at v search_word i) ->
  (exists i, occurs_at w search_word i) ->
  text_search search_word (before ++ w :: after)
  = if startswith w search_word then 1%Q else (1 # 2)%Q.
Proof.
  intros Hne Hbefore Hw. unfold text_search.
  destruct search_word as [|c q]; [done|]. simpl is_empty. cbv iota.
  apply text_search_loop_first.
  - apply List.Forall_forall. intros v Hv.
    destruct (contains (c :: q) v) eqn:E; [|done].
    apply contains_iff in E as [i Hi]. by destruct (Hbefore v i Hv).
  - by apply contains_iff.
Qed.

Lemma text_search_first_occurrence_decides_witness :
  text_search (lit "it") ([lit "text"] ++ lit "editor" :: [lit "item"])
  = (1 # 2)%Q.
Proof.
  apply (text_search_first_occurrence_decides (lit "it") [lit "text"]
           [lit "item"] (lit "editor")).
  - discriminate.
  - intros v i [<-|[]] Hocc.
    assert (H : contains (lit "it") (lit "text") = true).
    { apply contains_iff. by exists i. }
    discriminate H.
  - exists 2%Z. exists (lit "ed"), (lit "or"). split; reflexivity.
Defined.

(** ** parse_search *)

Section TokenizerMore.

Lemma tokenize_from_app (word before after : str) (c : ascii) :
  is_separator c = true ->
  tokenize_from word (before ++ c :: after)
  = tokenize_from word before ++ tokenize_from [] after.
Proof.
  intros Hc. revert word; induction before as [|x before IH]; intros word; simpl.
  - by rewrite Hc.
  - destruct (is_separator x); [by rewrite IH, app_assoc | apply IH].
Qed.

Lemma tokenize_from_lower (word text : str) :
  tokenize_from word (lower text) = tokenize_from word text.
Proof.
  revert word; induction text as [|c text IH]; intros word; simpl; [done|].
  rewrite lower_char_separator, lower_char_idem.
  destruct (is_separator c); by rewrite IH.
Qed.

Lemma tokenize_from_clean (word text : str) :
  clean text -> word ++ text <> [] -> tokenize_from word text = [word ++ text].
Proof.
  intros Hclean. revert word; induction Hclean as [|c text [Hsep Hlow] _ IH];
    intros word Hne; simpl.
  - rewrite app_nil_r in *. unfold emit. by destruct word.
  - rewrite Hsep, Hlow. rewrite IH; rewrite <- app_assoc; [done|].
    by destruct word.
Qed.

Lemma tokenize_from_separators (text : str) :
  Forall (fun c => is_separator c = true) text -> tokenize_from [] text = [].
Proof.
  induction 1 as [|c text Hc _ IH]; simpl; [done|]. by rewrite Hc, IH.
Qed.

Lemma parse_search_words (text : str) :
  Forall (fun w => w <> [] /\ clean w) (parse_search text).
Proof.
  rewrite parse_search_tokenize. apply tokenize_from_words. constructor.
Qed.

(** Joining proper words with spaces and tokenizing gives the words. *)
Lemma tokenize_join (words : list str) :
  Forall (fun w => w <> [] /\ clean w) words ->
  tokenize (join " "%char words) = words.
Proof.
  induction 1 as [|w ws [Hne Hclean] Hws IH]; [done|].
  destruct ws as [|w' ws].
  - simpl. unfold tokenize. by rewrite tokenize_from_clean.
  - change (join " "%char (w :: w' :: ws))
      with (w ++ " "%char :: join " "%char (w' :: ws)).
    unfold tokenize in *. rewrite tokenize_from_app by done.
    rewrite IH. by rewrite tokenize_from_clean.
Qed.

End TokenizerMore.

(** X3: a separator cuts the text in two independent parts: the words of
    [before], then the words of [after]. *)
Theorem parse_search_separator (before after : str) (c : ascii) :
  is_separator c = true ->
  parse_search (before ++ c :: after)
  = parse_search before ++ parse_search after.
Proof.
  intros Hc. rewrite !parse_search_tokenize. unfold tokenize.
  by apply tokenize_from_app.
Qed.

Lemma parse_search_separator_witness :
  parse_search (lit "Qubes" ++ "_"%char :: lit "VM Manager")
  = parse_search (lit "Qubes") ++ parse_search (lit "VM Manager").
Proof.
  apply (parse_search_separator (lit "Qubes") (lit "VM Manager") "_"%char).
  reflexivity.
Defined.

(** X4: tokenizing is a round trip on its own output: the words of a text,
    joined by spaces, tokenize to the same words; and the case of the text
    does not matter. *)
Theorem parse_search_round_trip (text : str) :
  parse_search (join " "%char (parse_search text)) = parse_search text /\
  parse_search (lower text) = parse_search text.
Proof.
  split.
  - rewrite (parse_search_tokenize (join _ _)).
    apply tokenize_join, parse_search_words.
  - rewrite !parse_search_tokenize. apply tokenize_from_lower.
Qed.

(** X5: a text has no words exactly when it consists of separators
    (spaces, '-', '_') only. *)
Theorem parse_search_empty_iff (text : str) :
  parse_search text = [] <-> Forall (fun c => is_separator c = true) text.
Proof.
  rewrite parse_search_tokenize. split.
  - intros Hnil.
    assert (Hcat : lower (List.filter (fun c => negb (is_separator c)) text) = []).
    { rewrite <- (app_nil_l (lower _)), <- tokenize_from_concat.
      fold (tokenize text). by rewrite Hnil. }
    apply map_eq_nil in Hcat. clear Hnil.
    induction text as [|c text IH]; [constructor|]. simpl in Hcat.
    destruct (is_separator c) eqn:E; [|discriminate].
    constructor; [done | by apply IH].
  - apply tokenize_from_separators.
Qed.

(** X6: every word of a tokenized text is found in that text: its rank
    against the words of the text is greater than 0. *)
Theorem parse_search_words_found (text w : str) :
  In w (parse_search text) ->
  (0 < text_search w (parse_search text))%Q.
Proof.
  intros Hw. apply text_search_found.
  pose proof (parse_search_words text) as Hall.
  rewrite List.Forall_forall in Hall. destruct (Hall w Hw) as [Hne _].
  split; [done|]. exists w, 0%Z. split; [done|].
  exists [], []. by rewrite app_nil_r.
Qed.

Lemma parse_search_words_found_witness :
  In (lit "manager") (parse_search (lit "Qube-Manager")) /\
  (0 < text_search (lit "manager") (parse_search (lit "Qube-Manager")))%Q.
Proof.
  assert (H : In (lit "manager") (parse_search (lit "Qube-Manager"))).
  { right. left. reflexivity. }
  split; [exact H|].
  exact (parse_search_words_found (lit "Qube-Manager") (lit "manager") H).
Defined.

(** ** highlight_words: from the search words to the markup *)

Section HighlightPipeline.

Lemma occurs_at_bound (s sub : str) (i : Z) :
  occurs_at s sub i ->
  (0 <= i)%Z /\ (i + Z.of_nat (List.length sub) <= Z.of_nat (List.length s))%Z.
Proof.
  intros (pre & post & -> & <-). rewrite !length_app. lia.
Qed.

Lemma hit_occurs (search_text word : str) :
  hit search_text word = true ->
  occurs_at search_text word (find search_text word).
Proof.
  unfold hit. intros Hhit. apply Z.leb_le in Hhit.
  destruct (find_spec search_text word) as [[Hr _]|[Hocc _]]; [lia | done].
Qed.

Lemma found_intervals_inside (text : str) (search_words : list str) :
  Forall (inside (Z.of_nat (List.length text)))
    (found_intervals text search_words).
Proof.
  unfold found_intervals. rewrite fold_find_step. simpl.
  apply Forall_map, Forall_forall. intros w Hw.
  apply list_elem_of_In, List.filter_In in Hw as [_ Hhit].
  apply hit_occurs, occurs_at_bound in Hhit.
  assert (Hl : List.length (lower text) = List.length text) by apply length_map.
  rewrite Hl in Hhit. unfold inside, span. cbn [fst snd]. lia.
Qed.

Lemma inside_wf (len : Z) (ivs : list interval) :
  Forall (inside len) ivs -> Forall wf ivs.
Proof.
  intros H. eapply Forall_impl; [exact H|]. by intros iv (_ & Hwf & _).
Qed.

Lemma merged_of_inside (len : Z) (inp out : list interval) :
  Forall (inside len) inp -> merged_of inp out -> Forall (inside len) out.
Proof.
  intros Hinp (Hwf & _ & Hout). rewrite List.Forall_forall in Hinp, Hwf.
  apply List.Forall_forall. intros o Ho.
  destruct (Hout o Ho) as ((i1 & H1 & _ & E1) & (i2 & H2 & _ & E2) & _).
  destruct (Hinp i1 H1) as (? & ? & ?), (Hinp i2 H2) as (? & ? & ?).
  specialize (Hwf o Ho). unfold inside, wf in *. lia.
Qed.

Lemma chain_of_apart (len pos : Z) (ivs : list interval) :
  (0 <= pos <= len)%Z ->
  StronglySorted apart ivs ->
  Forall (fun iv => (pos <= fst iv)%Z /\ inside len iv) ivs ->
  chain pos ivs len.
Proof.
  intros Hpos Hs. revert pos Hpos.
  induction Hs as [|[s e] ivs Hs IH Hall]; intros pos Hpos Hin; simpl; [done|].
  inversion Hin as [|? ? [Hps (H0 & Hse & Hlen)] Hin']; subst. simpl in *.
  split; [lia|]. split; [done|].
  apply IH; [lia|].
  rewrite List.Forall_forall in Hall, Hin'. apply List.Forall_forall.
  intros o Ho. specialize (Hall o Ho). destruct (Hin' o Ho) as [_ Hio].
  unfold apart in Hall. simpl in Hall. split; [lia | done].
Qed.

Lemma merged_found_inside (text : str) (search_words : list str) :
  Forall (inside (Z.of_nat (List.length text)))
    (merge_intervals (found_intervals text search_words)).
Proof.
  apply (merged_of_inside _ (found_intervals text search_words)).
  - apply found_intervals_inside.
  - apply merge_intervals_merged_of.
    apply (inside_wf _ _ (found_intervals_inside text search_words)).
Qed.

Lemma merged_found_chain (text : str) (search_words : list str) :
  chain 0 (merge_intervals (found_intervals text search_words))
    (Z.of_nat (List.length text)).
Proof.
  apply chain_of_apart; [lia | apply merge_intervals_sorted |].
  eapply Forall_impl; [apply merged_found_inside|].
  intros iv Hiv. split; [by destruct Hiv | done].
Qed.

Lemma merge_intervals_nil : merge_intervals [] = [].
Proof. reflexivity. Qed.

Lemma highlight_text_merge (hl_tag text : str) (search_words : list str) :
  highlight_text hl_tag text search_words
  = insert_markup hl_tag span_close text
      (merge_intervals (found_intervals text search_words)).
Proof.
  unfold highlight_text.
  by destruct (found_intervals text search_words).
Qed.

Lemma flatten_segments_length (hl_tag close text : str) (pos : Z)
    (ivs : list interval) :
  chain pos ivs (Z.of_nat (List.length text)) ->
  (List.length (flatten (segments hl_tag close text pos ivs))
   = Z.to_nat (Z.of_nat (List.length text) - pos)
     + List.length ivs * (List.length hl_tag + List.length close))%nat.
Proof.
  revert pos; induction ivs as [|[s e] ivs IH]; intros pos; simpl.
  - intros Hpos. unfold flatten, slice_from. simpl.
    rewrite app_nil_r, slice_index_nonneg, length_drop by lia. lia.
  - intros (Hpos & Hse & Hrest). pose proof (chain_bounds _ _ _ Hrest) as He.
    unfold flatten in *. simpl. rewrite !length_app, (IH e Hrest).
    unfold slice. rewrite !slice_index_nonneg by lia.
    rewrite !length_drop, !length_take. lia.
Qed.

Lemma coalesce_length (cur : interval) (rest : list interval) :
  (1 <= List.length (coalesce cur rest) <= S (List.length rest))%nat.
Proof.
  revert cur; induction rest as [|iv rest IH]; intros cur; simpl; [lia|].
  destruct (fst iv <=? snd cur)%Z.
  - specialize (IH (fst cur, Z.max (snd cur) (snd iv))). lia.
  - specialize (IH iv). simpl. lia.
Qed.

End HighlightPipeline.

(** X8: the markup is longer than the text by one highlight tag and one
    closing tag of seven characters for each merged interval. *)
Theorem highlight_text_length (hl_tag text : str) (search_words : list str) :
  List.length (highlight_text hl_tag text search_words)
  = (List.length text
     + List.length (merge_intervals (found_intervals text search_words))
       * (List.length hl_tag + 7))%nat.
Proof.
  pose proof (merged_found_chain text search_words) as Hchain.
  rewrite highlight_text_merge.
  rewrite (insert_markup_segments hl_tag span_close text 0 _ Hchain).
  rewrite length_app, (flatten_segments_length _ _ _ _ _ Hchain).
  unfold slice_to. rewrite slice_index_nonneg by lia. simpl. lia.
Qed.

(** X9: a character of the label is highlighted exactly when it lies in
    the first occurrence of one of the search words in the lower-cased
    text. *)
Theorem highlighted_characters (text : str) (search_words : list str) (x : Z) :
  (exists o, In o (merge_intervals (found_intervals text search_words)) /\
             covers o x) <->
  (exists w, In w search_words /\ hit (lower text) w = true /\
             covers (span (lower text) w) x).
Proof.
  pose proof (found_intervals_inside text search_words) as Hin.
  pose proof (merge_intervals_merged_of _ (inside_wf _ _ Hin)) as (_ & Hinp & Hout).
  assert (Hfound : forall iv, In iv (found_intervals text search_words) <->
            exists w, In w search_words /\ hit (lower text) w = true /\
                      iv = span (lower text) w).
  { intros iv. unfold found_intervals. rewrite fold_find_step. simpl.
    rewrite in_map_iff. split.
    - intros (w & <- & Hw). apply List.filter_In in Hw as [Hw Hhit]. by exists w.
    - intros (w & Hw & Hhit & ->). exists w. split; [done|].
      by apply List.filter_In. }
  split.
  - intros (o & Ho & Hx). destruct (Hout o Ho) as (_ & _ & Hcov).
    destruct (Hcov x Hx) as (i & Hi & _ & Ci).
    apply Hfound in Hi as (w & Hw & Hhit & ->). by exists w.
  - intros (w & Hw & Hhit & Hx).
    destruct (Hinp (span (lower text) w)) as (o & Ho & [Hw1 Hw2]).
    { apply Hfound. by exists w. }
    exists o. split; [done|]. unfold covers in *. lia.
Qed.

(** X10: a label in whose text none of the search words occurs keeps its
    plain text as markup; so does every label when there are no search
    words. *)
Theorem highlight_text_no_match (hl_tag text : str) (search_words : list str) :
  (forall w i, In w search_words -> ~ occurs_at (lower text) w i) ->
  highlight_text hl_tag text search_words = text.
Proof.
  intros Hnone. unfold highlight_text, found_intervals.
  rewrite fold_find_step. simpl.
  replace (List.filter (hit (lower text)) search_words) with (@nil str); [done|].
  symmetry. induction search_words as [|w ws IH]; [done|]. simpl.
  destruct (hit (lower text) w) eqn:E.
  - apply hit_occurs in E. destruct (Hnone w _ (or_introl eq_refl) E).
  - apply IH. intros v i Hv. apply Hnone. by right.
Qed.

Lemma highlight_text_no_match_witness :
  highlight_text (lit "<b>") (lit "Terminal") [lit "fire"; lit "fox"]
  = lit "Terminal".
Proof.
  apply (highlight_text_no_match (lit "<b>") (lit "Terminal")
           [lit "fire"; lit "fox"]).
  intros w i Hw Hocc.
  assert (H : contains w (lower (lit "Terminal")) = true).
  { apply contains_iff. by exists i. }
  destruct Hw as [<-|[<-|[]]]; discriminate H.
Defined.

(** X12: merging never adds intervals, and gives no interval only for no
    input. *)
Theorem merge_intervals_length (found : list interval) :
  (List.length (merge_intervals found) <= List.length found)%nat /\
  (merge_intervals found = [] <-> found = []).
Proof.
  unfold merge_intervals.
  pose proof (Permutation_length (sort_by_start_perm found)) as Hlen.
  destruct (sort_by_start found) as [|first rest] eqn:E.
  - destruct found; [|discriminate Hlen]. by split.
  - rewrite merge_sorted_coalesce.
    pose proof (coalesce_length first rest) as Hc. simpl in Hlen.
    split; [lia|]. split.
    + intros Hnil. rewrite Hnil in Hc. simpl in Hc. lia.
    + intros ->. discriminate E.
Qed.

(** ** The sorting step *)

Section SortingMore.

Lemma insert_by_start_filter (k : Z) (x : interval) (l : list interval) :
  List.filter (fun iv => (fst iv =? k)%Z) (insert_by_start x l)
  = List.filter (fun iv => (fst iv =? k)%Z) (x :: l).
Proof.
  induction l as [|y l IH]; [done|]. simpl insert_by_start.
  destruct (fst x <=? fst y)%Z eqn:E; [done|]. apply Z.leb_gt in E.
  simpl in *. rewrite IH.
  destruct (fst x =? k)%Z eqn:Ex, (fst y =? k)%Z eqn:Ey; try done.
  apply Z.eqb_eq in Ex, Ey. lia.
Qed.

End SortingMore.

(** X13: the sort of the found intervals returns the same intervals in
    non-decreasing order of their starts, and keeps the order in which the
    intervals with the same start were found. *)
Theorem sort_by_start_stable (found : list interval) :
  Permutation found (sort_by_start found) /\
  Sorted start_le (sort_by_start found) /\
  forall k : Z,
    List.filter (fun iv => (fst iv =? k)%Z) (sort_by_start found)
    = List.filter (fun iv => (fst iv =? k)%Z) found.
Proof.
  split; [apply sort_by_start_perm|]. split; [apply sort_by_start_sorted|].
  intros k. induction found as [|x found IH]; [done|]. simpl sort_by_start.
  rewrite insert_by_start_filter. simpl. by rewrite IH.
Qed.

(** ** get_visible_child *)

Section VisibleChild.

Context {W : Type} (get_mapped get_sensitive : W -> bool).

Lemma usable_test (child : W) :
  get_mapped child && get_sensitive child = true <-> usable get_mapped get_sensitive child.
Proof. unfold usable. apply andb_true_iff. Qed.

Lemma first_visible_some (iterator : list W) (child : W) :
  first_visible get_mapped get_sensitive iterator = Some child <->
  exists skipped rest,
    iterator = skipped ++ child :: rest /\ usable get_mapped get_sensitive child /\
    Forall (fun c => ~ usable get_mapped get_sensitive c) skipped.
Proof.
  induction iterator as [|c iterator IH]; simpl.
  - split; [done|]. intros (skipped & rest & Heq & _). by destruct skipped.
  - destruct (get_mapped c && get_sensitive c) eqn:E.
    + apply usable_test in E. split.
      * intros [= <-]. exists [], iterator.
        split; [done|]. split; [done | constructor].
      * intros (skipped & rest & Heq & Hu & Hskip).
        destruct skipped as [|s skipped]; [by injection Heq as -> _|].
        injection Heq as -> _. inversion Hskip; subst. done.
    + assert (Hc : ~ usable get_mapped get_sensitive c).
      { rewrite <- usable_test. by rewrite E. }
      rewrite IH. split.
      * intros (skipped & rest & -> & Hu & Hskip).
        exists (c :: skipped), rest. split; [done|]. split; [done|].
        by constructor.
      * intros (skipped & rest & Heq & Hu & Hskip).
        destruct skipped as [|s skipped]; [by injection Heq as -> _|].
        injection Heq as -> ->. inversion Hskip; subst.
        by exists skipped, rest.
Qed.

Lemma first_visible_none (iterator : list W) :
  first_visible get_mapped get_sensitive iterator = None <-> Forall (fun c => ~ usable get_mapped get_sensitive c) iterator.
Proof.
  induction iterator as [|c iterator IH]; simpl.
  - split; [constructor | done].
  - destruct (get_mapped c && get_sensitive c) eqn:E.
    + apply usable_test in E. split; [done|]. intros H. by inversion H.
    + assert (Hc : ~ usable get_mapped get_sensitive c).
      { rewrite <- usable_test. by rewrite E. }
      rewrite IH. split; [by constructor | intros H; by inversion H].
Qed.

End VisibleChild.

(** X14: [get_visible_child] returns the first child that is mapped and
    sensitive, and with [reverse=True] the last one: the children before
    it, respectively after it, are not usable. *)
Theorem get_visible_child_first_or_last {W : Type}
    (get_mapped get_sensitive : W -> bool) (children : list W) (child : W) :
  (get_visible_child get_mapped get_sensitive children false = Some child <->
   exists before after,
     children = before ++ child :: after /\
     usable get_mapped get_sensitive child /\
     Forall (fun c => ~ usable get_mapped get_sensitive c) before) /\
  (get_visible_child get_mapped get_sensitive children true = Some child <->
   exists before after,
     children = before ++ child :: after /\
     usable get_mapped get_sensitive child /\
     Forall (fun c => ~ usable get_mapped get_sensitive c) after).
Proof.
  unfold get_visible_child. split; [apply first_visible_some|].
  rewrite first_visible_some. split.
  - intros (skipped & rest & Heq & Hu & Hskip).
    exists (rev rest), (rev skipped). split; [|split; [done|]].
    + rewrite <- (rev_involutive children), Heq, rev_app_distr. simpl.
      by rewrite <- app_assoc.
    + by apply Forall_rev.
  - intros (before & after & -> & Hu & Hafter).
    exists (rev after), (rev before). split; [|split; [done|]].
    + rewrite rev_app_distr. simpl. by rewrite <- app_assoc.
    + by apply Forall_rev.
Qed.

(** X15: [get_visible_child] returns [None], in either direction, exactly
    when no child is both mapped and sensitive; an empty container is one
    such case. *)
Theorem get_visible_child_none {W : Type}
    (get_mapped get_sensitive : W -> bool) (children : list W) (reverse : bool) :
  get_visible_child get_mapped get_sensitive children reverse = None <->
  Forall (fun c => ~ usable get_mapped get_sensitive c) children.
Proof.
  unfold get_visible_child. rewrite first_visible_none.
  destruct reverse; [|done]. split; intros H.
  - rewrite <- (rev_involutive children). by apply Forall_rev.
  - by apply Forall_rev.
Qed.

(** ** load_icon *)

(** X16: the failures of the file loader and of the icon theme that
    [load_icon] handles never reach the caller: an exception out of
    [load_icon] is an unhandled kind of exception from one of those two
    calls, or comes from creating the blank pixbuf, which is outside the
    try blocks. *)
Theorem load_icon_raises_only {pixbuf : Type} (tk : toolkit pixbuf)
    (icon_name : str) (size : option IconSize) (pixel_size : option Z)
    (e : Icons.exn) :
  load_icon tk icon_name size pixel_size = inl e ->
  let width := fst (requested tk size pixel_size) in
  let height := snd (requested tk size pixel_size) in
  (e = OtherError /\
   new_from_file_at_size tk icon_name width height = inl OtherError) \/
  (e = OtherError /\ theme_load_icon tk icon_name width = inl OtherError) \/
  new_blank tk width height = inl e.
Proof.
  rewrite load_icon_unfold. destruct (requested tk size pixel_size) as [w h].
  simpl.
  destruct (new_from_file_at_size tk icon_name w h) as [[| |]|p];
    [| |intros [= <-]; by left|done].
  - destruct (theme_load_icon tk icon_name w) as [[| |]|image];
      [by right; right|by right; right|intros [= <-]; by right; left|done].
  - destruct (theme_load_icon tk icon_name w) as [[| |]|image];
      [by right; right|by right; right|intros [= <-]; by right; left|done].
Qed.

Lemma load_icon_raises_only_witness :
  load_icon (toy_toolkit [] []) (lit "firefox") None None = inl Icons.TypeError /\
  new_blank (toy_toolkit [] []) None None = inl Icons.TypeError.
Proof.
  assert (H : load_icon (toy_toolkit [] []) (lit "firefox") None None
              = inl Icons.TypeError) by reflexivity.
  split; [exact H|].
  destruct (load_icon_raises_only (toy_toolkit [] []) (lit "firefox") None None
              Icons.TypeError H) as [[Habs _]|[[Habs _]|Hblank]].
  - discriminate Habs.
  - discriminate Habs.
  - exact Hblank.
Defined.

(** X17: when the file loader and the icon theme fail only with
    [GLib.Error] or [TypeError] and the blank pixbuf of the requested size
    can be made, [load_icon] returns a pixbuf for every icon name. *)
Theorem load_icon_always_returns {pixbuf : Type} (tk : toolkit pixbuf)
    (icon_name : str) (size : option IconSize) (pixel_size : option Z) :
  (forall w h, new_from_file_at_size tk icon_name w h <> inl OtherError) ->
  (forall w, theme_load_icon tk icon_name w <> inl OtherError) ->
  (exists blank, new_blank tk (fst (requested tk size pixel_size))
                   (snd (requested tk size pixel_size)) = inr blank) ->
  exists p, load_icon tk icon_name size pixel_size = inr p.
Proof. apply load_icon_returns. Qed.

Lemma load_icon_always_returns_witness :
  exists p, load_icon (toy_toolkit [] []) (lit "missing")
              (Some LARGE_TOOLBAR) None = inr p.
Proof.
  apply (load_icon_always_returns (toy_toolkit [] []) (lit "missing")
           (Some LARGE_TOOLBAR) None).
  - intros [w|] [h|]; discriminate.
  - intros [w|]; discriminate.
  - by exists (Blank 24 24).
Defined.

(** ** load_settings and the feature events *)

Section SettingsMore.

Variable int_of_str : str -> option Z.
Variables INITIAL_PAGE_FEATURE SORT_RUNNING_FEATURE : string.

Lemma lit_empty (v : string) : is_empty (lit v) = true <-> v = ""%string.
Proof. destruct v; simpl; split; done. Qed.

Lemma load_settings_value (self : AppMenu) (features : gmap string string) :
  load_settings int_of_str INITIAL_PAGE_FEATURE SORT_RUNNING_FEATURE self features
  = inr {| initial_page :=
             match features !! INITIAL_PAGE_FEATURE with
             | Some v => match int_of_str (lit v) with
                         | Some page => page
                         | None => 1%Z
                         end
             | None => 1%Z
             end;
           sort_running :=
             py_bool (features_get features SORT_RUNNING_FEATURE (PBool false));
           handlers :=
             (fun _ => py_bool (features_get features SORT_RUNNING_FEATURE
                                  (PBool false))) <$> handlers self |}.
Proof.
  unfold load_settings. by rewrite read_initial_page_value.
Qed.

Lemma load_settings_same_pages (a b : AppMenu) (features : gmap string string) :
  same_pages a b ->
  load_settings int_of_str INITIAL_PAGE_FEATURE SORT_RUNNING_FEATURE a features
  = load_settings int_of_str INITIAL_PAGE_FEATURE SORT_RUNNING_FEATURE b features.
Proof.
  intros Hsame. rewrite !load_settings_value. by rewrite Hsame.
Qed.

Lemma load_settings_keeps_pages (self app : AppMenu)
    (features : gmap string string) :
  load_settings int_of_str INITIAL_PAGE_FEATURE SORT_RUNNING_FEATURE self features = inr app ->
  same_pages self app.
Proof.
  rewrite load_settings_value. intros [= <-]. intros order. simpl.
  rewrite <- map_fmap_compose. done.
Qed.

Lemma feature_events_same_pages (local_name : string) (self : AppMenu)
    (events : list (string * gmap string string)) :
  exists app,
    feature_events int_of_str INITIAL_PAGE_FEATURE SORT_RUNNING_FEATURE local_name self events
    = inr app /\ same_pages self app.
Proof.
  revert self; induction events as [|[vm features] events IH]; intros self; simpl.
  - by exists self.
  - unfold _update_settings. destruct (bool_decide (vm = local_name)).
    + rewrite load_settings_value.
      match goal with |- context [feature_events _ _ _ _ ?s _] =>
        destruct (IH s) as (app & Heq & Hsame) end.
      exists app. split; [done|]. intros order.
      rewrite <- Hsame. simpl. by rewrite <- map_fmap_compose.
    + apply IH.
Qed.

Lemma feature_events_app (local_name : string) (self : AppMenu)
    (events later : list (string * gmap string string)) :
  feature_events int_of_str INITIAL_PAGE_FEATURE SORT_RUNNING_FEATURE local_name self
    (events ++ later)
  = match feature_events int_of_str INITIAL_PAGE_FEATURE SORT_RUNNING_FEATURE local_name
            self events with
    | inl e => inl e
    | inr app =>
        feature_events int_of_str INITIAL_PAGE_FEATURE SORT_RUNNING_FEATURE local_name
          app later
    end.
Proof.
  revert self; induction events as [|[vm features] events IH]; intros self; simpl.
  - done.
  - destruct (_update_settings _ _ _ _ _ _ _); [done | apply IH].
Qed.

End SettingsMore.

(** X18: running-first sorting is switched on by any non-empty value of
    its feature, "0" and "False" included, and off by an empty or missing
    value; every page handler is given that sorting order, and no handler
    is added or removed. *)
Theorem load_settings_sorting
    (int_of_str : str -> option Z)
    (INITIAL_PAGE_FEATURE SORT_RUNNING_FEATURE : string)
    (self app : AppMenu) (features : gmap string string) :
  load_settings int_of_str INITIAL_PAGE_FEATURE SORT_RUNNING_FEATURE self features = inr app ->
  (sort_running app = true <->
   exists v, features !! SORT_RUNNING_FEATURE = Some v /\ v <> ""%string) /\
  dom (handlers app) = dom (handlers self) /\
  (forall page order, handlers app !! page = Some order ->
                      order = sort_running app).
Proof.
  rewrite load_settings_value. intros [= <-]. simpl. split; [|split].
  - unfold features_get.
    destruct (features !! SORT_RUNNING_FEATURE) as [v|]; simpl.
    + rewrite negb_true_iff, <- not_true_iff_false, lit_empty. split.
      * intros Hv. by exists v.
      * by intros (v' & [= <-] & Hv).
    + split; [done | by intros (v & Hv & _)].
  - apply dom_fmap_L.
  - intros page order. rewrite lookup_fmap.
    destruct (handlers self !! page); simpl; [by intros [= <-] | done].
Qed.

Lemma load_settings_sorting_witness :
  exists app,
    load_settings toy_int "page" "sort" (mkAppMenu 1 false {[ "app_page"%string := false ]})
      {[ "sort"%string := "0"%string ]} = inr app /\
    sort_running app = true.
Proof.
  pose proof (load_settings_value toy_int "page" "sort"
                (mkAppMenu 1 false {[ "app_page"%string := false ]})
                {[ "sort"%string := "0"%string ]}) as H.
  eexists. split; [exact H|].
  apply (proj1 (load_settings_sorting _ _ _ _ _ _ H)).
  exists "0"%string. split; [|done]. apply lookup_singleton_eq.
Defined.

(** X19: loading the settings again from an unchanged feature store
    changes nothing, and the result does not depend on the page and the
    sorting order that were set before. *)
Theorem load_settings_reload
    (int_of_str : str -> option Z)
    (INITIAL_PAGE_FEATURE SORT_RUNNING_FEATURE : string)
    (self app : AppMenu) (features : gmap string string) :
  load_settings int_of_str INITIAL_PAGE_FEATURE SORT_RUNNING_FEATURE self features = inr app ->
  load_settings int_of_str INITIAL_PAGE_FEATURE SORT_RUNNING_FEATURE app features = inr app /\
  forall page order,
    load_settings int_of_str INITIAL_PAGE_FEATURE SORT_RUNNING_FEATURE
      (mkAppMenu page order (handlers self)) features = inr app.
Proof.
  intros Hload. split.
  - rewrite <- Hload. symmetry. apply load_settings_same_pages.
    by eapply load_settings_keeps_pages.
  - intros page order. rewrite <- Hload. by apply load_settings_same_pages.
Qed.

Lemma load_settings_reload_witness :
  exists app,
    load_settings toy_int "page" "sort" (mkAppMenu 0 true {[ "app_page"%string := true ]})
      {[ "page"%string := "2"%string ]} = inr app /\
    load_settings toy_int "page" "sort" app {[ "page"%string := "2"%string ]} = inr app.
Proof.
  pose proof (load_settings_value toy_int "page" "sort"
                (mkAppMenu 0 true {[ "app_page"%string := true ]})
                {[ "page"%string := "2"%string ]}) as H.
  eexists. split; [exact H|].
  apply (proj1 (load_settings_reload _ _ _ _ _ _ H)).
Defined.

(** X20: after any run of feature events, the last event of the local
    qube wins: the settings are the ones loaded from the feature store as
    it was at that event.  Events of other qubes change nothing. *)
Theorem feature_events_last_wins
    (int_of_str : str -> option Z)
    (INITIAL_PAGE_FEATURE SORT_RUNNING_FEATURE local_name : string)
    (self : AppMenu) (features : gmap string string)
    (events later : list (string * gmap string string)) :
  Forall (fun event => fst event <> local_name) later ->
  feature_events int_of_str INITIAL_PAGE_FEATURE SORT_RUNNING_FEATURE local_name self
    (events ++ (local_name, features) :: later)
  = load_settings int_of_str INITIAL_PAGE_FEATURE SORT_RUNNING_FEATURE self features /\
  feature_events int_of_str INITIAL_PAGE_FEATURE SORT_RUNNING_FEATURE local_name self later
  = inr self.
Proof.
  intros Hlater.
  assert (Hskip : forall app,
    feature_events int_of_str INITIAL_PAGE_FEATURE SORT_RUNNING_FEATURE local_name app later
    = inr app).
  { intros app. revert app. induction Hlater as [|[vm f] later Hvm _ IH];
      intros app; simpl; [done|].
    unfold _update_settings. simpl in Hvm.
    rewrite bool_decide_eq_false_2 by done. apply IH. }
  split; [|apply Hskip].
  rewrite feature_events_app.
  destruct (feature_events_same_pages int_of_str INITIAL_PAGE_FEATURE SORT_RUNNING_FEATURE
              local_name self events) as (app & -> & Hsame).
  simpl. unfold _update_settings. rewrite bool_decide_eq_true_2 by done.
  rewrite (load_settings_same_pages _ _ _ app self) by (intros order; by rewrite Hsame).
  rewrite (load_settings_value _ _ _ self). apply Hskip.
Qed.

Lemma feature_events_last_wins_witness :
  feature_events toy_int "page" "sort" "dom0" (mkAppMenu 1 false ∅)
    ([("dom0"%string, {[ "page"%string := "0"%string ]})] ++
     ("dom0"%string, {[ "page"%string := "2"%string ]}) :: [("work"%string, ∅)])
  = load_settings toy_int "page" "sort" (mkAppMenu 1 false ∅)
      {[ "page"%string := "2"%string ]}.
Proof.
  apply (feature_events_last_wins toy_int "page" "sort" "dom0" (mkAppMenu 1 false ∅)
           {[ "page"%string := "2"%string ]}
           [("dom0"%string, {[ "page"%string := "0"%string ]})]
           [("work"%string, ∅)]).
  repeat constructor. simpl. discriminate.
Defined.

(** ** The power button *)

Section SplitJoin.

Lemma split_whole (sep : ascii) (w : str) :
  ~ In sep w -> split sep w = [w].
Proof.
  induction w as [|c w IH]; simpl; [done|]. intros Hin.
  destruct (Ascii.eqb c sep) eqn:E.
  - apply Ascii.eqb_eq in E. destruct Hin. by left.
  - rewrite IH; [done|]. intros H. apply Hin. by right.
Qed.

Lemma split_at_sep (sep : ascii) (w rest : str) :
  ~ In sep w -> split sep (w ++ sep :: rest) = w :: split sep rest.
Proof.
  induction w as [|c w IH]; simpl; intros Hin.
  - by rewrite Ascii.eqb_refl.
  - destruct (Ascii.eqb c sep) eqn:E.
    + apply Ascii.eqb_eq in E. destruct Hin. by left.
    + rewrite IH; [done|]. intros H. apply Hin. by right.
Qed.

Lemma split_join (sep : ascii) (entries : list str) :
  entries <> [] -> Forall (fun entry => ~ In sep entry) entries ->
  split sep (join sep entries) = entries.
Proof.
  intros Hne Hall. induction Hall as [|w ws Hw Hws IH]; [done|].
  destruct ws as [|w' ws]; [by apply split_whole|].
  change (join sep (w :: w' :: ws)) with (w ++ sep :: join sep (w' :: ws)).
  rewrite split_at_sep by done. by rewrite IH.
Qed.

End SplitJoin.

(** X21: with [XDG_CURRENT_DESKTOP] set to entries joined by colons, the
    power button asks KDE for its logout prompt exactly when one of the
    entries is "KDE", and runs [xfce4-session-logout] otherwise; an unset
    variable counts as the single empty entry. *)
Theorem power_button_desktop (entries : list str) :
  entries <> [] -> Forall (fun entry => ~ In ":"%char entry) entries ->
  (_do_power_button (Some (join ":"%char entries)) = KDEPrompt <->
   In (lit "KDE") entries) /\
  (_do_power_button (Some (join ":"%char entries)) = XfceLogout <->
   ~ In (lit "KDE") entries) /\
  _do_power_button None = _do_power_button (Some (join ":"%char [[]])).
Proof.
  intros Hne Hall.
  assert (Hex : existsb (fun entry => bool_decide (entry = lit "KDE")) entries
                = true <-> In (lit "KDE") entries).
  { rewrite existsb_exists. split.
    - intros (e & He & Heq). apply bool_decide_eq_true in Heq. by subst.
    - intros Hin. exists (lit "KDE"). split; [done|].
      by apply bool_decide_eq_true. }
  assert (Hrun : _do_power_button (Some (join ":"%char entries))
                 = if existsb (fun entry => bool_decide (entry = lit "KDE")) entries
                   then KDEPrompt else XfceLogout).
  { unfold _do_power_button, current_environs. simpl default.
    by rewrite split_join. }
  rewrite Hrun.
  destruct (existsb (fun entry => bool_decide (entry = lit "KDE")) entries) eqn:E.
  - split; [|split; [|reflexivity]].
    + split; [intros _; by apply Hex | done].
    + split; [done|]. intros Hno. destruct Hno. by apply Hex.
  - split; [|split; [|reflexivity]].
    + split; [done|]. intros Hin. apply Hex in Hin. discriminate.
    + split; [|done]. intros _ Hin. apply Hex in Hin. discriminate.
Qed.

Lemma power_button_desktop_witness :
  _do_power_button (Some (join ":"%char [lit "ubuntu"; lit "KDE"])) = KDEPrompt.
Proof.
  apply (proj1 (power_button_desktop [lit "ubuntu"; lit "KDE"]
                  ltac:(discriminate)
                  ltac:(repeat constructor; intros H; simpl in H;
                        repeat (destruct H as [H|H]; [discriminate H|]);
                        exact H))).
  right. by left.
Defined.

(** ** Activation, the command line and hiding the menu *)

Section ActivationFacts.

Variable int_of_str : str -> option Z.
Variables INITIAL_PAGE_FEATURE SORT_RUNNING_FEATURE : string.
Variable features : gmap string string.
Variable built_window : Window.
Variable built_notebook : Notebook.
Variable new_page_sorting : bool.

Lemma perform_setup_value (self : App) :
  exists loaded,
    perform_setup int_of_str INITIAL_PAGE_FEATURE SORT_RUNNING_FEATURE features
      built_window built_notebook new_page_sorting self
    = inr {| fields := loaded;
             primary := primary self;
             keep_visible := keep_visible self;
             start_in_background := start_in_background self;
             main_window := Some built_window;
             main_notebook := Some built_notebook |} /\
    initial_page loaded = feature_page int_of_str INITIAL_PAGE_FEATURE features.
Proof.
  unfold perform_setup. rewrite load_settings_value. by eexists.
Qed.

Lemma read_options_flags (self : App) (options : gmap string variant) :
  keep_visible (read_options self options)
  = keep_visible self || given options "keep-visible" /\
  start_in_background (read_options self options)
  = start_in_background self || given options "background" /\
  initial_page (fields (read_options self options))
  = match options !! "page"%string with
    | Some page => variant_int page
    | None => initial_page (fields self)
    end /\
  primary (read_options self options) = primary self /\
  main_window (read_options self options) = main_window self /\
  main_notebook (read_options self options) = main_notebook self.
Proof.
  unfold read_options, given.
  destruct (options !! "keep-visible"%string), (options !! "page"%string),
    (options !! "background"%string); simpl;
    rewrite ?orb_true_r, ?orb_false_r; done.
Qed.

End ActivationFacts.

(** X22: on the first activation the page comes from the feature store,
    not from the command line.  Whatever [--page] says, a menu that has
    not been set up reads the page that [load_settings] takes from the
    feature store (1 when the value does not parse or is missing).  When
    the notebook has no page of that number the call fails at the focus
    grab; otherwise the event loop is entered as the primary instance with
    that page as initial page and as current page of the notebook, and
    with the window shown unless the menu starts in the background, and
    the call returns 0 once the loop has ended. *)
Theorem first_command_line_uses_feature_page
    (int_of_str : str -> option Z)
    (INITIAL_PAGE_FEATURE SORT_RUNNING_FEATURE : string)
    (features : gmap string string) (built_window : Window)
    (built_notebook : Notebook) (new_page_sorting : bool)
    (has_page : Z -> bool) (event_loop : App -> Menu.exn + App)
    (self : App) (options : gmap string variant) :
  primary self = false ->
  exists entered,
    primary entered = true /\
    initial_page (fields entered)
    = feature_page int_of_str INITIAL_PAGE_FEATURE features /\
    main_notebook entered
    = Some {| current_page :=
                feature_page int_of_str INITIAL_PAGE_FEATURE features |} /\
    window_visible entered
    = (if start_in_background self || given options "background"
       then is_visible built_window else true) /\
    do_command_line int_of_str INITIAL_PAGE_FEATURE SORT_RUNNING_FEATURE features
      built_window built_notebook new_page_sorting has_page event_loop
      self options
    = if has_page (feature_page int_of_str INITIAL_PAGE_FEATURE features)
      then match event_loop entered with
           | inl e => inl e
           | inr self' => inr (0%Z, self')
           end
      else inl FocusError.
Proof.
  intros Hprimary. unfold do_command_line, do_activate.
  destruct (read_options_flags self options)
    as (Hk & Hb & Hp & Hpr & Hw & Hn).
  rewrite Hpr, Hprimary.
  destruct (perform_setup_value int_of_str INITIAL_PAGE_FEATURE
              SORT_RUNNING_FEATURE features built_window built_notebook
              new_page_sorting (read_options self options))
    as (loaded & -> & Hpage).
  simpl. rewrite Hb.
  match goal with |- context [event_loop ?e] => exists e end.
  unfold show_initial_page, window_visible. simpl. rewrite Hpage.
  split; [done|]. split; [done|]. split; [done|]. split.
  - by destruct (start_in_background self || given options "background").
  - by destruct (has_page (feature_page int_of_str INITIAL_PAGE_FEATURE features)).
Qed.

Lemma first_command_line_uses_feature_page_witness :
  exists entered,
    initial_page (fields entered) = 1%Z /\
    do_command_line toy_int "page" "sort" ∅ (mkWindow false false)
      (mkNotebook 0) false (fun _ => true) inr
      (mkApp (mkAppMenu 1 false ∅) false false false None None)
      {[ "page"%string := VInt 2 ]}
    = inr (0%Z, entered).
Proof.
  destruct (first_command_line_uses_feature_page toy_int "page" "sort" ∅
              (mkWindow false false) (mkNotebook 0) false (fun _ => true) inr
              (mkApp (mkAppMenu 1 false ∅) false false false None None)
              {[ "page"%string := VInt 2 ]} eq_refl)
    as (entered & _ & Hpage & _ & _ & Hrun).
  exists entered. split; [rewrite Hpage; reflexivity | exact Hrun].
Defined.

(** X23: a command line that reaches the running menu opens the page of
    [--page], or the initial page set before when the option is absent;
    the flags [--keep-visible] and [--background] are only ever switched
    on, and the call returns 0. *)
Theorem later_command_line
    (int_of_str : str -> option Z)
    (INITIAL_PAGE_FEATURE SORT_RUNNING_FEATURE : string)
    (features : gmap string string) (built_window : Window)
    (built_notebook : Notebook) (new_page_sorting : bool)
    (has_page : Z -> bool) (event_loop : App -> Menu.exn + App)
    (self : App) (options : gmap string variant) (nb : Notebook) :
  primary self = true -> main_notebook self = Some nb ->
  exists self',
    do_command_line int_of_str INITIAL_PAGE_FEATURE SORT_RUNNING_FEATURE features
      built_window built_notebook new_page_sorting has_page event_loop self options
    = inr (0%Z, self') /\
    main_notebook self'
    = Some {| current_page :=
                match options !! "page"%string with
                | Some page => variant_int page
                | None => initial_page (fields self)
                end |} /\
    keep_visible self' = keep_visible self || given options "keep-visible" /\
    start_in_background self'
    = start_in_background self || given options "background" /\
    primary self' = true.
Proof.
  intros Hprimary Hnb. unfold do_command_line, do_activate.
  destruct (read_options_flags self options)
    as (Hk & Hb & Hp & Hpr & Hw & Hn).
  rewrite Hpr, Hprimary. unfold show_initial_page. rewrite Hn, Hnb. simpl.
  rewrite Hw.
  destruct (main_window self) as [w|]; simpl.
  - destruct (is_visible w && negb (keep_visible (read_options self options)));
      eexists; (split; [reflexivity|]); simpl; rewrite Hp, Hk, Hb, Hpr; done.
  - eexists; (split; [reflexivity|]); simpl; rewrite Hp, Hk, Hb, Hpr; done.
Qed.

Lemma later_command_line_witness :
  exists self',
    do_command_line toy_int "page" "sort" ∅ (mkWindow false false) (mkNotebook 0) false
      (fun _ => true) inr
      (mkApp (mkAppMenu 1 false ∅) true false false
         (Some (mkWindow true false)) (Some (mkNotebook 1)))
      {[ "page"%string := VInt 2 ]}
    = inr (0%Z, self') /\
    main_notebook self' = Some (mkNotebook 2).
Proof.
  destruct (later_command_line toy_int "page" "sort" ∅
              (mkWindow false false) (mkNotebook 0) false
              (fun _ => true) inr
              (mkApp (mkAppMenu 1 false ∅) true false false
                 (Some (mkWindow true false)) (Some (mkNotebook 1)))
              {[ "page"%string := VInt 2 ]} (mkNotebook 1) eq_refl eq_refl)
    as (self' & Hrun & Hnb & _).
  exists self'. split; [exact Hrun|]. rewrite Hnb. reflexivity.
Defined.

(** X24: activating the running menu again toggles its window when the
    menu is not kept visible: a shown window is hidden, a hidden one is
    presented, and two activations in a row give back the visibility the
    window had. *)
Theorem activation_toggles_window
    (int_of_str : str -> option Z)
    (INITIAL_PAGE_FEATURE SORT_RUNNING_FEATURE : string)
    (features : gmap string string) (built_window : Window)
    (built_notebook : Notebook) (new_page_sorting : bool)
    (has_page : Z -> bool) (event_loop : App -> Menu.exn + App)
    (self : App) (w : Window) :
  primary self = true -> keep_visible self = false ->
  main_window self = Some w ->
  exists once twice,
    do_activate int_of_str INITIAL_PAGE_FEATURE SORT_RUNNING_FEATURE features
      built_window built_notebook new_page_sorting has_page event_loop self = inr once /\
    do_activate int_of_str INITIAL_PAGE_FEATURE SORT_RUNNING_FEATURE features
      built_window built_notebook new_page_sorting has_page event_loop once = inr twice /\
    window_visible once = negb (is_visible w) /\
    window_visible twice = is_visible w.
Proof.
  intros Hprimary Hkeep Hwin. unfold do_activate. rewrite Hprimary.
  destruct self as [f pr kv bg mw mn]. simpl in *. subst.
  unfold show_initial_page, window_visible. simpl.
  destruct mn as [nb|], w as [[] above]; simpl;
    eexists _, _; (split; [reflexivity|]); simpl;
    (split; [reflexivity|]); done.
Qed.

Lemma activation_toggles_window_witness :
  exists once,
    do_activate toy_int "page" "sort" ∅ (mkWindow false false) (mkNotebook 0) false
      (fun _ => true) inr
      (mkApp (mkAppMenu 1 false ∅) true false false
         (Some (mkWindow true false)) (Some (mkNotebook 1))) = inr once /\
    window_visible once = false.
Proof.
  destruct (activation_toggles_window toy_int "page" "sort" ∅
              (mkWindow false false) (mkNotebook 0) false
              (fun _ => true) inr
              (mkApp (mkAppMenu 1 false ∅) true false false
                 (Some (mkWindow true false)) (Some (mkNotebook 1)))
              (mkWindow true false) eq_refl eq_refl eq_refl)
    as (once & twice & Hrun & _ & Hvis & _).
  exists once. split; [exact Hrun | exact Hvis].
Defined.

(** X25: a menu that is kept visible is never hidden: with
    [keep_visible] set and the window shown, the window is still shown
    after another activation, after [hide_menu], after a focus-out event
    and after any key press, Escape included. *)
Theorem keep_visible_keeps_window
    (int_of_str : str -> option Z)
    (INITIAL_PAGE_FEATURE SORT_RUNNING_FEATURE : string)
    (features : gmap string string) (built_window : Window)
    (built_notebook : Notebook) (new_page_sorting : bool)
    (has_page : Z -> bool) (event_loop : App -> Menu.exn + App) (self : App) :
  primary self = true -> keep_visible self = true ->
  window_visible self = true ->
  (exists self',
     do_activate int_of_str INITIAL_PAGE_FEATURE SORT_RUNNING_FEATURE features
      built_window built_notebook new_page_sorting has_page event_loop self = inr self' /\
     window_visible self' = true) /\
  (forall self', hide_menu self = inr self' -> window_visible self' = true) /\
  (forall open_menus self',
     _focus_out self open_menus = inr self' -> window_visible self' = true) /\
  (forall keyval focus_on_search consumed self',
     _key_press self keyval focus_on_search = inr (consumed, self') ->
     window_visible self' = true).
Proof.
  intros Hprimary Hkeep Hvis.
  assert (Hhide : forall self', hide_menu self = inr self' ->
                                window_visible self' = true).
  { intros self'. unfold hide_menu. rewrite Hkeep.
    destruct (handlers (fields self) !! "search_page"%string); [|done].
    destruct (main_window self); simpl; by intros [= <-]. }
  split; [|split; [done|split]].
  - unfold do_activate. rewrite Hprimary.
    destruct self as [f pr kv bg mw mn]. unfold window_visible in *.
    simpl in *. subst. unfold show_initial_page. simpl.
    destruct mw as [[vis above]|]; [|done]. simpl in Hvis. subst.
    destruct mn; simpl; by eexists.
  - intros open_menus self'. unfold _focus_out.
    destruct (open_menus <=? 0)%Z; [apply Hhide | by intros [= <-]].
  - intros keyval focus consumed self'. unfold _key_press.
    destruct (keyval =? KEY_Escape)%Z.
    + destruct (hide_menu self) as [e|hidden] eqn:E; [done|].
      pose proof (Hhide hidden eq_refl) as Hshown.
      destruct ((keyval =? KEY_space)%Z && negb focus); by intros [= _ <-].
    + destruct ((keyval =? KEY_space)%Z && negb focus); by intros [= _ <-].
Qed.

Lemma keep_visible_keeps_window_witness :
  exists self',
    do_activate toy_int "page" "sort" ∅ (mkWindow false false) (mkNotebook 0) false
      (fun _ => true) inr
      (mkApp (mkAppMenu 1 false {[ "search_page"%string := false ]})
         true true false (Some (mkWindow true false))
         (Some (mkNotebook 1))) = inr self' /\
    window_visible self' = true.
Proof.
  exact (proj1 (keep_visible_keeps_window toy_int "page" "sort" ∅
           (mkWindow false false) (mkNotebook 0) false
           (fun _ => true) inr
           (mkApp (mkAppMenu 1 false {[ "search_page"%string := false ]})
              true true false (Some (mkWindow true false))
              (Some (mkNotebook 1)))
           eq_refl eq_refl eq_refl)).
Defined.

(** X26: without [keep_visible], hiding works whenever the search page is
    registered: [hide_menu], a focus-out event with no context menu open
    and the Escape key all leave the window hidden; and a key press is
    consumed only for the space key outside the search entry. *)
Theorem hide_menu_hides (self : App) (w : Window) (order : bool) :
  keep_visible self = false -> main_window self = Some w ->
  handlers (fields self) !! "search_page"%string = Some order ->
  (exists self', hide_menu self = inr self' /\ window_visible self' = false) /\
  (forall open_menus, (open_menus <= 0)%Z ->
     exists self', _focus_out self open_menus = inr self' /\
                   window_visible self' = false) /\
  (forall focus_on_search,
     exists self', _key_press self KEY_Escape focus_on_search = inr (false, self') /\
                   window_visible self' = false) /\
  (forall keyval focus_on_search self',
     _key_press self keyval focus_on_search = inr (true, self') ->
     keyval = KEY_space /\ focus_on_search = false /\ self' = self).
Proof.
  intros Hkeep Hwin Hpage.
  assert (Hhide : exists self', hide_menu self = inr self' /\
                                window_visible self' = false).
  { unfold hide_menu. rewrite Hpage, Hwin, Hkeep. simpl. by eexists. }
  split; [done|]. split; [|split].
  - intros open_menus Hopen. unfold _focus_out.
    apply Z.leb_le in Hopen. by rewrite Hopen.
  - intros focus. unfold _key_press. simpl.
    destruct Hhide as (self' & -> & Hvis). simpl. by exists self'.
  - intros keyval focus self'. unfold _key_press.
    destruct (keyval =? KEY_Escape)%Z eqn:Eesc.
    + apply Z.eqb_eq in Eesc. subst keyval.
      destruct Hhide as (hidden & -> & _). simpl. done.
    + destruct (keyval =? KEY_space)%Z eqn:Esp; simpl; [|done].
      apply Z.eqb_eq in Esp. destruct focus; simpl; [done|].
      by intros [= <-].
Qed.

Lemma hide_menu_hides_witness :
  exists self',
    hide_menu (mkApp (mkAppMenu 1 false {[ "search_page"%string := false ]})
                 true false false (Some (mkWindow true false))
                 (Some (mkNotebook 1))) = inr self' /\
    window_visible self' = false.
Proof.
  exact (proj1 (hide_menu_hides
           (mkApp (mkAppMenu 1 false {[ "search_page"%string := false ]})
              true false false (Some (mkWindow true false))
              (Some (mkNotebook 1)))
           (mkWindow true false) false eq_refl eq_refl eq_refl)).
Defined.

(** * Every Python string: the tokenizer and the highlighting *)

(** ** parse_search on code points *)

Section UnicodeTokenizer.

Lemma usplit_cons (sep : N) (s : Unicode.ustr) :
  exists w ws, Unicode.split sep s = w :: ws.
Proof.
  induction s as [|c s (w & ws & IH)]; simpl; [by eexists _, _|].
  destruct (c =? sep)%N; [by eexists _, _|].
  rewrite IH. by eexists _, _.
Qed.

Lemma unormal_eq (c : N) :
  (let d := if (c =? Unicode.HYPHEN)%N then Unicode.SPACE else c in
   if (d =? Unicode.UNDERSCORE)%N then Unicode.SPACE else d)
  = Unicode.normal c.
Proof.
  unfold Unicode.normal, Unicode.is_separator,
    Unicode.SPACE, Unicode.HYPHEN, Unicode.UNDERSCORE. simpl.
  destruct (c =? 45)%N eqn:E1, (c =? 95)%N eqn:E2, (c =? 32)%N eqn:E3;
    simpl; try reflexivity.
  by apply N.eqb_eq in E3.
Qed.

Lemma unormal_space (c : N) :
  (Unicode.normal c =? Unicode.SPACE)%N = Unicode.is_separator c.
Proof.
  unfold Unicode.normal. destruct (Unicode.is_separator c) eqn:E; [done|].
  unfold Unicode.is_separator in E.
  by apply orb_false_elim in E as [E _]; apply orb_false_elim in E as [E _].
Qed.

Lemma unormalise_map (s : Unicode.ustr) :
  Unicode.replace Unicode.UNDERSCORE Unicode.SPACE
    (Unicode.replace Unicode.HYPHEN Unicode.SPACE s)
  = map Unicode.normal s.
Proof.
  unfold Unicode.replace. rewrite map_map. apply map_ext.
  intros c. apply unormal_eq.
Qed.

Lemma ufilter_single (word : Unicode.ustr) :
  List.filter Unicode.nonempty [word] = Unicode.emit word.
Proof. unfold Unicode.emit. by destruct word. Qed.

Lemma usplit_scan (word text : Unicode.ustr) :
  List.filter Unicode.nonempty
    (Unicode.glue word (Unicode.split Unicode.SPACE (map Unicode.normal text)))
  = Unicode.scan word text.
Proof.
  revert word; induction text as [|c text IH]; intros word.
  - simpl. rewrite app_nil_r. apply ufilter_single.
  - cbn [map Unicode.split Unicode.scan]. rewrite unormal_space.
    destruct (Unicode.is_separator c) eqn:Hsep.
    + rewrite <- IH.
      destruct (usplit_cons Unicode.SPACE (map Unicode.normal text))
        as (w & ws & ->).
      cbn [Unicode.glue app]. rewrite app_nil_r, <- ufilter_single. simpl.
      by destruct (Unicode.nonempty word).
    + rewrite <- IH.
      destruct (usplit_cons Unicode.SPACE (map Unicode.normal text))
        as (w & ws & ->).
      cbn [Unicode.glue]. unfold Unicode.normal. rewrite Hsep.
      by rewrite <- app_assoc.
Qed.

Lemma uparse_search_scan (lower : Unicode.ustr -> Unicode.ustr)
    (text : Unicode.ustr) :
  Unicode.parse_search lower text = Unicode.tokenize lower text.
Proof.
  unfold Unicode.parse_search, Unicode.tokenize. rewrite unormalise_map.
  rewrite <- usplit_scan.
  destruct (usplit_cons Unicode.SPACE (map Unicode.normal (lower text)))
    as (w & ws & ->).
  reflexivity.
Qed.

Lemma uconcat_emit (word : Unicode.ustr) : concat (Unicode.emit word) = word.
Proof.
  unfold Unicode.emit. destruct word; simpl; [done | by rewrite app_nil_r].
Qed.

Lemma uscan_concat (word text : Unicode.ustr) :
  concat (Unicode.scan word text)
  = word ++ List.filter (fun c => negb (Unicode.is_separator c)) text.
Proof.
  revert word; induction text as [|c text IH]; intros word; simpl.
  - rewrite app_nil_r. apply uconcat_emit.
  - destruct (Unicode.is_separator c) eqn:Hsep; simpl.
    + by rewrite concat_app, uconcat_emit, IH.
    + rewrite IH. by rewrite <- app_assoc.
Qed.

Lemma uscan_words (word text : Unicode.ustr) :
  Forall (fun c => Unicode.is_separator c = false) word ->
  Forall (fun w => w <> [] /\
                   Forall (fun c => Unicode.is_separator c = false) w)
    (Unicode.scan word text).
Proof.
  revert word; induction text as [|c text IH]; intros word Hw; simpl.
  - unfold Unicode.emit. destruct word; simpl; [constructor|].
    constructor; [done | constructor].
  - destruct (Unicode.is_separator c) eqn:Hsep.
    + apply Forall_app. split.
      * unfold Unicode.emit. destruct word; simpl; [constructor|].
        constructor; [done | constructor].
      * apply IH. constructor.
    + apply IH. apply Forall_app. split; [done|]. by repeat constructor.
Qed.

End UnicodeTokenizer.

(** C4: for every input string and whatever [lower()] makes of it,
    [parse_search] returns the words of the lower-cased text: it agrees
    with the one-pass tokenizer of the specification run on [lower(text)],
    with ' ', '-' and '_' as separators; its words are non-empty and free
    of separators, and joined together in their order they are the
    lower-cased text without its separators.  With [lower()] doing on
    ASCII strings what it does in Python, "Foo-Bar_Baz" gives "foo", "bar",
    "baz" and the empty string gives no word. *)
Theorem parse_search_tokenizes (lower : Unicode.ustr -> Unicode.ustr) :
  (forall text, Unicode.parse_search lower text = Unicode.tokenize lower text) /\
  (forall text,
     Forall (fun w => w <> [] /\
                      Forall (fun c => Unicode.is_separator c = false) w)
       (Unicode.parse_search lower text)) /\
  (forall text,
     concat (Unicode.parse_search lower text)
     = List.filter (fun c => negb (Unicode.is_separator c)) (lower text)) /\
  (Unicode.lower_on_ascii lower ->
   Unicode.parse_search lower (Unicode.codes "Foo-Bar_Baz")
   = [Unicode.codes "foo"; Unicode.codes "bar"; Unicode.codes "baz"] /\
   Unicode.parse_search lower (Unicode.codes "") = []).
Proof.
  split; [apply uparse_search_scan|]. split.
  { intros text. rewrite uparse_search_scan. apply uscan_words. constructor. }
  split.
  { intros text. rewrite uparse_search_scan. unfold Unicode.tokenize.
    by rewrite uscan_concat. }
  intros Hlower. unfold Unicode.parse_search. split.
  - rewrite Hlower; [reflexivity|]. repeat constructor.
  - rewrite Hlower; [reflexivity|]. constructor.
Qed.

Lemma parse_search_tokenizes_witness :
  Unicode.lower_on_ascii (map Unicode.ascii_lower) /\
  Unicode.parse_search (map Unicode.ascii_lower) (Unicode.codes "Foo-Bar_Baz")
  = [Unicode.codes "foo"; Unicode.codes "bar"; Unicode.codes "baz"].
Proof.
  assert (H : Unicode.lower_on_ascii (map Unicode.ascii_lower)).
  { intros s _. reflexivity. }
  split; [exact H|].
  exact (proj1 (proj2 (proj2 (proj2
           (parse_search_tokenizes (map Unicode.ascii_lower)))) H)).
Defined.

(** ** highlight_words on code points *)

Section UnicodeHighlight.

Lemma ustartswith_iff (s p : Unicode.ustr) :
  Unicode.startswith s p = true <-> exists post, s = p ++ post.
Proof.
  revert s; induction p as [|c p IH]; intros s; simpl.
  - split; [intros _; by exists s | done].
  - destruct s as [|d s]; simpl.
    + split; [done | intros [post H]; discriminate].
    + rewrite andb_true_iff, N.eqb_eq, IH. split.
      * intros [-> [post ->]]. by exists post.
      * intros [post H]. injection H as -> ->. split; [done | by exists post].
Qed.

Lemma uoccurs_at_skip (c : N) (s sub : Unicode.ustr) (k : Z) :
  Unicode.occurs_at s sub k -> Unicode.occurs_at (c :: s) sub (k + 1).
Proof.
  intros (pre & post & -> & <-). exists (c :: pre), post.
  split; [done | simpl; lia].
Qed.

Lemma ufind_from_sound (s sub : Unicode.ustr) (i : Z) :
  Unicode.find_from i s sub = (-1)%Z \/
  exists k, Unicode.find_from i s sub = (i + k)%Z /\ Unicode.occurs_at s sub k.
Proof.
  revert i; induction s as [|c s IH]; intros i; simpl.
  - destruct (Unicode.startswith [] sub) eqn:E; [|by left].
    right. exists 0%Z. split; [lia|].
    apply ustartswith_iff in E as [post E]. by exists [], post.
  - destruct (Unicode.startswith (c :: s) sub) eqn:E.
    + right. exists 0%Z. split; [lia|].
      apply ustartswith_iff in E as [post E]. by exists [], post.
    + destruct (IH (i + 1)%Z) as [Hr|(k & Hr & Hocc)]; [by left|].
      right. exists (k + 1)%Z. split; [lia | by apply uoccurs_at_skip].
Qed.

Lemma ufind_occurs (s sub : Unicode.ustr) :
  (0 <= Unicode.find s sub)%Z ->
  Unicode.occurs_at s sub (Unicode.find s sub).
Proof.
  unfold Unicode.find. intros Hpos.
  destruct (ufind_from_sound s sub 0) as [Hr|(k & Hr & Hocc)]; [lia|].
  rewrite Hr. by replace (0 + k)%Z with k by lia.
Qed.

Lemma uoccurs_at_bound (s sub : Unicode.ustr) (i : Z) :
  Unicode.occurs_at s sub i ->
  (0 <= i)%Z /\ (i + Z.of_nat (List.length sub) <= Z.of_nat (List.length s))%Z.
Proof.
  intros (pre & post & -> & <-). rewrite !length_app. lia.
Qed.

Lemma ufold_find_step (search_text : Unicode.ustr)
    (search_words : list Unicode.ustr) (acc : list interval) :
  fold_left (Unicode.find_step search_text) search_words acc
  = acc ++ map (fun w => (Unicode.find search_text w,
                          (Unicode.find search_text w
                           + Z.of_nat (List.length w))%Z))
             (List.filter (fun w => (0 <=? Unicode.find search_text w)%Z)
                search_words).
Proof.
  revert acc; induction search_words as [|w ws IH]; intros acc; simpl.
  - by rewrite app_nil_r.
  - rewrite IH. unfold Unicode.find_step.
    destruct (0 <=? Unicode.find search_text w)%Z; simpl; [|done].
    by rewrite <- app_assoc.
Qed.

Variable lower : Unicode.ustr -> Unicode.ustr.

Lemma ufound_intervals_inside (text : Unicode.ustr)
    (search_words : list Unicode.ustr) :
  List.length (lower text) = List.length text ->
  Forall (inside (Z.of_nat (List.length text)))
    (Unicode.found_intervals lower text search_words).
Proof.
  intros Hlen. unfold Unicode.found_intervals. rewrite ufold_find_step. simpl.
  apply Forall_map, Forall_forall. intros w Hw.
  apply list_elem_of_In, List.filter_In in Hw as [_ Hhit].
  apply Z.leb_le in Hhit. apply ufind_occurs, uoccurs_at_bound in Hhit.
  rewrite Hlen in Hhit. unfold inside. cbn [fst snd]. lia.
Qed.

Lemma umerged_found_inside (text : Unicode.ustr)
    (search_words : list Unicode.ustr) :
  List.length (lower text) = List.length text ->
  Forall (inside (Z.of_nat (List.length text)))
    (merge_intervals (Unicode.found_intervals lower text search_words)).
Proof.
  intros Hlen.
  pose proof (ufound_intervals_inside text search_words Hlen) as Hin.
  apply (merged_of_inside _ _ _ Hin).
  apply merge_intervals_merged_of. by eapply inside_wf.
Qed.

Lemma umerged_found_chain (text : Unicode.ustr)
    (search_words : list Unicode.ustr) :
  List.length (lower text) = List.length text ->
  chain 0 (merge_intervals (Unicode.found_intervals lower text search_words))
    (Z.of_nat (List.length text)).
Proof.
  intros Hlen. apply chain_of_apart; [lia | apply merge_intervals_sorted |].
  eapply Forall_impl; [by apply umerged_found_inside|].
  intros iv Hiv. split; [by destruct Hiv | done].
Qed.

Lemma uhighlight_text_merge (hl_tag text : Unicode.ustr)
    (search_words : list Unicode.ustr) :
  Unicode.highlight_text lower hl_tag text search_words
  = Unicode.insert_markup hl_tag Unicode.span_close text
      (merge_intervals (Unicode.found_intervals lower text search_words)).
Proof.
  unfold Unicode.highlight_text.
  by destruct (Unicode.found_intervals lower text search_words).
Qed.

Variables hl_tag close text : Unicode.ustr.

Lemma uinsert_markup_cons (iv : interval) (ivs : list interval) :
  Unicode.insert_markup hl_tag close text (iv :: ivs)
  = Unicode.markup_step hl_tag close
      (Unicode.insert_markup hl_tag close text ivs) iv.
Proof.
  unfold Unicode.insert_markup. simpl. by rewrite fold_left_app.
Qed.

Lemma ustrip_segments (pos : Z) (ivs : list interval) :
  chain pos ivs (Z.of_nat (List.length text)) ->
  Unicode.strip (Unicode.segments hl_tag close text pos ivs)
  = Unicode.slice_from text pos.
Proof.
  revert pos; induction ivs as [|[s e] ivs IH]; intros pos; simpl.
  - intros _. unfold Unicode.strip. simpl. by rewrite app_nil_r.
  - intros (Hpos & Hse & Hrest). pose proof (chain_bounds _ _ _ Hrest) as He.
    unfold Unicode.strip in *. simpl. rewrite IH by done.
    unfold Unicode.slice, Unicode.slice_from.
    rewrite !slice_index_nonneg by lia.
    rewrite drop_take_rest by lia. rewrite drop_take_rest by lia. done.
Qed.

Lemma uinsert_markup_segments (pos : Z) (ivs : list interval) :
  chain pos ivs (Z.of_nat (List.length text)) ->
  Unicode.insert_markup hl_tag close text ivs
  = Unicode.slice_to text pos
    ++ Unicode.flatten (Unicode.segments hl_tag close text pos ivs).
Proof.
  revert pos; induction ivs as [|[s e] ivs IH]; intros pos.
  - intros _. unfold Unicode.insert_markup, Unicode.flatten, Unicode.slice_to.
    simpl. unfold Unicode.slice_from. by rewrite app_nil_r, take_drop.
  - simpl. intros (Hpos & Hse & Hrest).
    pose proof (chain_bounds _ _ _ Hrest) as He.
    rewrite uinsert_markup_cons, (IH e Hrest).
    set (rest := Unicode.flatten (Unicode.segments hl_tag close text e ivs)).
    unfold Unicode.markup_step, Unicode.flatten. simpl.
    fold (Unicode.flatten (Unicode.segments hl_tag close text e ivs)).
    fold rest.
    unfold Unicode.slice_to, Unicode.slice, Unicode.slice_from.
    rewrite !slice_index_nonneg by lia.
    assert (Hlen : List.length (take (Z.to_nat e) text) = Z.to_nat e).
    { rewrite length_take. lia. }
    rewrite (take_app_le (take (Z.to_nat e) text)) by lia.
    rewrite take_take, Nat.min_l by lia.
    rewrite (take_app_length' (take (Z.to_nat e) text)) by done.
    rewrite (drop_app_length' (take (Z.to_nat e) text)) by done.
    rewrite <- (take_drop (Z.to_nat pos) (take (Z.to_nat s) text)) at 1.
    rewrite take_take, Nat.min_l by lia.
    by rewrite <- !app_assoc.
Qed.

End UnicodeHighlight.

(** X7: highlighting only inserts tags, provided lower-casing keeps the
    length of the label's text (it does for ASCII text, but not for every
    string: a capital I with a dot above becomes two characters).  Then
    the markup of a label is its text cut at the bounds of the merged
    intervals, with the highlight tag and the closing tag around each
    interval, and taking the tags out gives the text of the label back. *)
Theorem highlight_inserts_tags_only
    (lower : Unicode.ustr -> Unicode.ustr)
    (hl_tag text : Unicode.ustr) (search_words : list Unicode.ustr) :
  List.length (lower text) = List.length text ->
  Unicode.highlight_text lower hl_tag text search_words
  = Unicode.flatten
      (Unicode.segments hl_tag Unicode.span_close text 0
         (merge_intervals (Unicode.found_intervals lower text search_words))) /\
  Unicode.strip
    (Unicode.segments hl_tag Unicode.span_close text 0
       (merge_intervals (Unicode.found_intervals lower text search_words)))
  = text.
Proof.
  intros Hlen.
  pose proof (umerged_found_chain lower text search_words Hlen) as Hchain.
  split.
  - rewrite uhighlight_text_merge.
    by rewrite (uinsert_markup_segments hl_tag Unicode.span_close text 0 _ Hchain).
  - by rewrite (ustrip_segments hl_tag Unicode.span_close text 0 _ Hchain).
Qed.

Lemma highlight_inserts_tags_only_witness :
  Unicode.highlight_text (map Unicode.ascii_lower) (Unicode.codes "<b>")
    (Unicode.codes "Terminal") [Unicode.codes "min"; Unicode.codes "term"]
  = Unicode.codes "<b>Termin</span>al".
Proof.
  rewrite (proj1 (highlight_inserts_tags_only (map Unicode.ascii_lower)
                    (Unicode.codes "<b>") (Unicode.codes "Terminal")
                    [Unicode.codes "min"; Unicode.codes "term"]
                    (length_map _ _))).
  reflexivity.
Defined.



(** ** On ASCII text the two tokenizers are one *)

Section AsciiInstance.

Lemma ascii_lower_char (c : ascii) :
  Unicode.ascii_lower (N_of_ascii c) = N_of_ascii (lower_char c).
Proof. destruct c as [[] [] [] [] [] [] [] []]; reflexivity. Qed.

Lemma code_eqb (c d : ascii) :
  (N_of_ascii c =? N_of_ascii d)%N = Ascii.eqb c d.
Proof.
  destruct (Ascii.eqb c d) eqn:E.
  - apply Ascii.eqb_eq in E. subst. apply N.eqb_refl.
  - apply N.eqb_neq. intros H. apply (f_equal ascii_of_N) in H.
    rewrite !ascii_N_embedding in H. subst. by rewrite Ascii.eqb_refl in E.
Qed.

Lemma replace_codes (old new : ascii) (s : str) :
  Unicode.replace (N_of_ascii old) (N_of_ascii new) (map N_of_ascii s)
  = map N_of_ascii (replace old new s).
Proof.
  unfold Unicode.replace, replace. rewrite !map_map. apply map_ext.
  intros c. rewrite code_eqb. by destruct (Ascii.eqb c old).
Qed.

Lemma split_codes (sep : ascii) (s : str) :
  Unicode.split (N_of_ascii sep) (map N_of_ascii s)
  = map (map N_of_ascii) (split sep s).
Proof.
  induction s as [|c s IH]; simpl; [done|].
  rewrite code_eqb, IH. destruct (Ascii.eqb c sep); [done|].
  by destruct (split sep s).
Qed.

Lemma filter_codes (words : list str) :
  List.filter Unicode.nonempty (map (map N_of_ascii) words)
  = map (map N_of_ascii) (List.filter (fun w => negb (is_empty w)) words).
Proof.
  induction words as [|w ws IH]; simpl; [done|].
  rewrite IH. by destruct w.
Qed.

(** With [lower()] doing on ASCII strings what it does in Python, the
    tokenizer on code points gives, for an ASCII text, the words that
    [Search.parse_search] gives. *)
Lemma parse_search_on_ascii (lower : Unicode.ustr -> Unicode.ustr) (text : str) :
  Unicode.lower_on_ascii lower ->
  Forall Unicode.is_ascii (map N_of_ascii text) ->
  Unicode.parse_search lower (map N_of_ascii text)
  = map (map N_of_ascii) (parse_search text).
Proof.
  intros Hlower Hascii. unfold Unicode.parse_search, parse_search.
  rewrite (Hlower _ Hascii), map_map.
  rewrite (map_ext _ (fun c => N_of_ascii (lower_char c)))
    by (intros c; apply ascii_lower_char).
  rewrite <- (map_map lower_char N_of_ascii).
  change (map lower_char text) with (PyStr.lower text).
  change Unicode.HYPHEN with (N_of_ascii "-"%char).
  change Unicode.UNDERSCORE with (N_of_ascii "_"%char).
  change Unicode.SPACE with (N_of_ascii " "%char).
  by rewrite !replace_codes, split_codes, filter_codes.
Qed.

End AsciiInstance.
